(** * ivy: a file-backed record store with in-memory secondary indexes

    Shallow embedding of [db.go] (the current store, with field and tag
    indexes) and of the earlier tag-only variant of the same package, kept in
    module [Legacy].

    Go values are embedded as follows.
    - [map[string]T] is a [gmap string T]; a nil map and an empty map read the
      same, and the places where Go distinguishes them (assignment into a nil
      map) are written out.
    - [error] is [option goError]; [None] is Go's [nil].
    - a multiple-value return [(v, err)] is a pair.
    - a run-time panic (nil dereference, failed type assertion, index out of
      range) is an outcome of its own, next to a normal return.
    - [int] is a 64-bit two's-complement integer carried in [Z].
    - the directory tree under [db.path], the schedule of transient I/O
      failures of the storage substrate, and a log of lock operations are part
      of the threaded state. *)

From stdpp Require Import gmap strings list fin_maps sorting.
From Stdlib Require Import ZArith Lia Ascii.

Local Open Scope string_scope.
Local Open Scope Z_scope.
Local Open Scope list_scope.
Set Warnings "-register-all".

(** ** Values *)

(** What [json.Unmarshal] stores into an [interface{}]: the decoded document. *)
Inductive json : Type :=
  | JNull
  | JBool (b : bool)
  | JNum (literal : string)      (* decoded float64; never inspected *)
  | JStr (s : string)
  | JArr (elems : list json)
  | JObj (members : list (string * json)).

(** The bytes of a file: either they do not parse as JSON, or they are the
    serialisation of a document. *)
Inductive fileData : Type :=
  | Malformed
  | Doc (j : json).

Inductive dirent : Type :=
  | RegularFile (data : fileData)
  | Directory (nonempty : bool).

Inductive goError : Type :=
  | ErrNotExist          (* os: file does not exist *)
  | ErrPermission        (* os: permission denied *)
  | ErrIO                (* transient substrate failure *)
  | ErrIsDir             (* read or write of a directory *)
  | ErrNotEmpty          (* remove of a non-empty directory *)
  | ErrJSONSyntax        (* *json.SyntaxError *)
  | ErrUnmarshalType     (* *json.UnmarshalTypeError *)
  | ErrMarshal           (* json.Marshal: unsupported value *)
  | ErrAtoiSyntax        (* strconv.ErrSyntax *)
  | ErrAtoiRange.        (* strconv.ErrRange *)

Abbreviation error := (option goError).

Inductive panicKind : Type :=
  | NilPointerDereference
  | InterfaceConversion
  | IndexOutOfRange
  | NilMapAssignment.

Inductive lockEvent : Type :=
  | EvLock (tbl : string)
  | EvUnlock (tbl : string)
  | EvRLock (tbl : string)
  | EvRUnlock (tbl : string).

Global Instance goError_eq_dec : EqDecision goError.
Proof. solve_decision. Defined.
Global Instance panicKind_eq_dec : EqDecision panicKind.
Proof. solve_decision. Defined.
Global Instance lockEvent_eq_dec : EqDecision lockEvent.
Proof. solve_decision. Defined.

(** ** State

    [rwLocks], [fieldsToIndex], [tagIndexes] and [fldIndexes] are the fields of
    Go's [DB] struct ([rwLocks] keeps the set of tables that own a mutex; a
    table outside it maps to a nil [*sync.RWMutex]).  [files] is the directory
    tree under [db.path]: table directory, then file name.  [unlistable] are
    the table directories that exist but whose entries cannot be read
    (no read permission on the directory).  [faults] is the
    schedule of the substrate: each [ReadFile], [WriteFile] and [Remove] call
    takes the head, and fails with [ErrIO] when it is [true]; an exhausted
    schedule means no further failure.  [lockLog] records the lock operations
    performed so far, oldest first. *)
Record state : Type := mkState {
  files : gmap string (gmap string dirent);
  unlistable : gset string;
  faults : list bool;
  lockLog : list lockEvent;
  rwLocks : gset string;
  fieldsToIndex : gmap string (list string);
  tagIndexes : gmap string (gmap string (list string));
  fldIndexes : gmap string (gmap string (gmap string (list string)))
}.

Definition set_files (f : gmap string (gmap string dirent)) (s : state) : state :=
  mkState f (unlistable s) (faults s) (lockLog s) (rwLocks s) (fieldsToIndex s)
          (tagIndexes s) (fldIndexes s).
Definition set_unlistable (u : gset string) (s : state) : state :=
  mkState (files s) u (faults s) (lockLog s) (rwLocks s) (fieldsToIndex s)
          (tagIndexes s) (fldIndexes s).
Definition set_faults (fl : list bool) (s : state) : state :=
  mkState (files s) (unlistable s) fl (lockLog s) (rwLocks s) (fieldsToIndex s)
          (tagIndexes s) (fldIndexes s).
Definition set_lockLog (l : list lockEvent) (s : state) : state :=
  mkState (files s) (unlistable s) (faults s) l (rwLocks s) (fieldsToIndex s)
          (tagIndexes s) (fldIndexes s).
Definition set_tagIndexes (t : gmap string (gmap string (list string)))
    (s : state) : state :=
  mkState (files s) (unlistable s) (faults s) (lockLog s) (rwLocks s)
          (fieldsToIndex s)
          t (fldIndexes s).
Definition set_fldIndexes
    (f : gmap string (gmap string (gmap string (list string))))
    (s : state) : state :=
  mkState (files s) (unlistable s) (faults s) (lockLog s) (rwLocks s)
          (fieldsToIndex s)
          (tagIndexes s) f.

(** ** The monad: state passing, with panics *)

Inductive outcome (A : Type) : Type :=
  | Ret (a : A)
  | Panic (p : panicKind).
Arguments Ret {A} a.
Arguments Panic {A} p.

Definition M (A : Type) : Type := state → outcome A * state.

Global Instance M_ret : MRet M := λ A a s, (Ret a, s).
Global Instance M_bind : MBind M := λ A B f m s,
  match m s with
  | (Ret a, s') => f a s'
  | (Panic p, s') => (Panic p, s')
  end.

Definition panic {A} (p : panicKind) : M A := λ s, (Panic p, s).
Definition get : M state := λ s, (Ret s, s).
Definition modify (f : state → state) : M unit := λ s, (Ret tt, f s).

(** [defer d; body]: the deferred call runs when the body returns and also
    when it panics. *)
Definition defer {A} (d : state → state) (body : M A) : M A := λ s,
  let '(r, s') := body s in (r, d s').

(** ** Locks: [db.rwLocks[tblName]] *)

Definition logEvent (e : lockEvent) (s : state) : state :=
  set_lockLog (lockLog s ++ [e]) s.

(** Calling a method of a nil [*sync.RWMutex] dereferences it. *)
Definition acquire (e : lockEvent) (tblName : string) : M unit := λ s,
  if decide (tblName ∈ rwLocks s) then (Ret tt, logEvent e s)
  else (Panic NilPointerDereference, s).

Definition Lock (tblName : string) : M unit := acquire (EvLock tblName) tblName.
Definition RLock (tblName : string) : M unit := acquire (EvRLock tblName) tblName.
Definition Unlock (tblName : string) : state → state := logEvent (EvUnlock tblName).
Definition RUnlock (tblName : string) : state → state := logEvent (EvRUnlock tblName).

(** ** Strings: [path.Ext], slicing, [strconv] *)

(** [path.Ext]: scan from the last byte towards the first, stop at a slash,
    return the suffix that starts at the first dot met.  [r] is what is left
    of the reversed path, [acc] the bytes already passed. *)
Fixpoint Ext_scan (r acc : string) : string :=
  match r with
  | EmptyString => ""
  | String c r' =>
      if Ascii.eqb c "/"%char then ""
      else if Ascii.eqb c "."%char then String c acc
      else Ext_scan r' (String c acc)
  end.
Definition Ext (p : string) : string := Ext_scan (String.rev p) "".

(** [name[:len(name)-5]] *)
Definition stem (name : string) : string :=
  String.substring 0 (String.length name - 5) name.

Definition isDigit (c : Ascii.ascii) : bool :=
  ((48 <=? Ascii.N_of_ascii c) && (Ascii.N_of_ascii c <=? 57))%N.
Definition digitVal (c : Ascii.ascii) : Z := Z.of_N (Ascii.N_of_ascii c) - 48.
Definition digitChar (d : Z) : Ascii.ascii := Ascii.ascii_of_N (Z.to_N (d + 48)).

Definition minInt : Z := - 2 ^ 63.
Definition maxInt : Z := 2 ^ 63 - 1.
(** Go's [int] arithmetic wraps. *)
Definition wrapInt (z : Z) : Z := (z + 2 ^ 63) mod 2 ^ 64 - 2 ^ 63.

Definition maxUint64 : Z := 2 ^ 64 - 1.

(** The digit loop of [strconv.ParseUint]: a byte that is not a digit is a
    syntax error, and a value that leaves [uint64] is a range error, at the
    byte where either happens. *)
Inductive digitsResult : Type :=
  | DValue (n : Z)
  | DSyntax
  | DRange.

Fixpoint parseDigits (s : string) (n : Z) : digitsResult :=
  match s with
  | EmptyString => DValue n
  | String c r =>
      if isDigit c then
        let n1 := n * 10 + digitVal c in
        if maxUint64 <? n1 then DRange else parseDigits r n1
      else DSyntax
  end.

(** [strconv.Atoi]: an optional sign, then one or more decimal digits, and
    the value must fit [int]. *)
Definition Atoi (s : string) : Z * error :=
  let '(neg, body) :=
    match s with
    | String c r =>
        if Ascii.eqb c "-"%char then (true, r)
        else if Ascii.eqb c "+"%char then (false, r)
        else (false, s)
    | EmptyString => (false, s)
    end in
  match body with
  | EmptyString => (0, Some ErrAtoiSyntax)
  | _ =>
      match parseDigits body 0 with
      | DSyntax => (0, Some ErrAtoiSyntax)
      | DRange => (if neg then minInt else maxInt, Some ErrAtoiRange)
      | DValue n =>
          let v := if neg then - n else n in
          if v <? minInt then (minInt, Some ErrAtoiRange)
          else if maxInt <? v then (maxInt, Some ErrAtoiRange)
          else (v, None)
      end
  end.

Fixpoint formatDigits (fuel : nat) (u : Z) (acc : string) : string :=
  match fuel with
  | O => acc
  | S f =>
      let acc' := String (digitChar (u mod 10)) acc in
      if u <? 10 then acc' else formatDigits f (u / 10) acc'
  end.

(** [strconv.Itoa]; twenty digits are enough for any 64-bit magnitude. *)
Definition Itoa (i : Z) : string :=
  if i <? 0 then String "-"%char (formatDigits 20 (- i) "")
  else formatDigits 20 i "".

(** ** Helper Functions *)

Fixpoint stringInSlice (s : string) (list : list string) : bool :=
  match list with
  | [] => false
  | x :: rest => if decide (x = s) then true else stringInSlice s rest
  end.

(** ** The storage substrate *)

(** [ioutil.ReadDir]: the entries sorted by file name.  A missing directory
    and a directory that cannot be read give no entries and an error. *)
Definition ReadDir (tblName : string) (s : state)
    : list (string * dirent) * error :=
  match files s !! tblName with
  | None => ([], Some ErrNotExist)
  | Some d =>
      if decide (tblName ∈ unlistable s) then ([], Some ErrPermission)
      else (merge_sort (λ x y, String.le x.1 y.1) (map_to_list d), None)
  end.

Definition ioFault : M bool := λ s,
  match faults s with
  | [] => (Ret false, s)
  | b :: fl => (Ret b, set_faults fl s)
  end.

(** [filePath]: the file [fileId ++ ".json"] of the table's directory. *)
Definition fileName (fileId : string) : string := fileId +:+ ".json".

Definition lookupFile (tree : gmap string (gmap string dirent))
    (tblName fileId : string) : option dirent :=
  tree !! tblName ≫= λ d, d !! fileName fileId.

Definition ReadFile (tblName fileId : string) : M (fileData * error) :=
  f ← ioFault;
  if (f : bool) then mret (Malformed, Some ErrIO)
  else
    s ← get;
    match lookupFile (files s) tblName fileId with
    | Some (RegularFile data) => mret (data, None)
    | Some (Directory _) => mret (Malformed, Some ErrIsDir)
    | None => mret (Malformed, Some ErrNotExist)
    end.

Definition WriteFile (tblName fileId : string) (data : fileData) : M error :=
  f ← ioFault;
  if (f : bool) then mret (Some ErrIO)
  else
    s ← get;
    match files s !! tblName with
    | None => mret (Some ErrNotExist)
    | Some d =>
        match d !! fileName fileId with
        | Some (Directory _) => mret (Some ErrIsDir)
        | _ =>
            modify (set_files
              (<[tblName := <[fileName fileId := RegularFile data]> d]> (files s)));;
            mret None
        end
    end.

(** [os.Remove] unlinks a file and also removes an empty directory. *)
Definition Remove (tblName fileId : string) : M error :=
  f ← ioFault;
  if (f : bool) then mret (Some ErrIO)
  else
    s ← get;
    match files s !! tblName with
    | None => mret (Some ErrNotExist)
    | Some d =>
        match d !! fileName fileId with
        | None => mret (Some ErrNotExist)
        | Some (Directory true) => mret (Some ErrNotEmpty)
        | Some _ =>
            modify (set_files
              (<[tblName := delete (fileName fileId) d]> (files s)));;
            mret None
        end
    end.

(** ** The codec *)

(** [json.Unmarshal(data, &rec)] with [rec] a [map[string]interface{}]: a
    JSON object is stored into the map that [rec] already holds, keeping the
    entries it does not mention; [null] sets [rec] to nil; any other document
    is a type error and leaves [rec] alone. *)
Definition Unmarshal (data : fileData) (rec : gmap string json)
    : gmap string json * error :=
  match data with
  | Malformed => (rec, Some ErrJSONSyntax)
  | Doc JNull => (∅, None)
  | Doc (JObj members) =>
      (foldl (λ m kv, <[kv.1 := kv.2]> m) rec members, None)
  | Doc _ => (rec, Some ErrUnmarshalType)
  end.

(** [json.Marshal(rec)]: the caller's value either has no JSON form or
    serialises to a document. *)
Inductive record : Type :=
  | Unsupported
  | Value (j : json).

Definition Marshal (rec : record) : fileData * error :=
  match rec with
  | Unsupported => (Malformed, Some ErrMarshal)
  | Value j => (Doc j, None)
  end.

(** [x.(string)] and [x.([]interface{})] on a map element. *)
Definition assertString (x : option json) : M string :=
  match x with
  | Some (JStr v) => mret v
  | _ => panic InterfaceConversion
  end.
Definition assertSlice (x : option json) : M (list json) :=
  match x with
  | Some (JArr l) => mret l
  | _ => panic InterfaceConversion
  end.

(** ** Private DB Methods *)

(** [fileIdsInDataDir]: the stems of the regular files whose extension is
    [.json], in directory order.  The error of [ReadDir] is dropped. *)
Definition fileIdsInDataDir (tblName : string) (s : state) : list string :=
  let '(entries, _) := ReadDir tblName s in
  omap (λ e : string * dirent,
          match e.2 with
          | Directory _ => None
          | RegularFile _ =>
              if decide (Ext e.1 = ".json") then Some (stem e.1) else None
          end) entries.

Definition fldBucket (tblName fldName fldValue : string) (s : state)
    : option (list string) :=
  fldIndexes s !! tblName ≫= λ t, t !! fldName ≫= λ f, f !! fldValue.

(** [db.fldIndexes[tblName][fldName][fldValue] = ids]; assigning into a nil
    inner map panics. *)
Definition setFldBucket (tblName fldName fldValue : string)
    (ids : list string) : M unit := λ s,
  match fldIndexes s !! tblName with
  | Some t =>
      match t !! fldName with
      | Some f =>
          (Ret tt,
           set_fldIndexes
             (<[tblName := <[fldName := <[fldValue := ids]> f]> t]> (fldIndexes s)) s)
      | None => (Panic NilMapAssignment, s)
      end
  | None => (Panic NilMapAssignment, s)
  end.

(** The inner loop of [initNonTagsIndexes] over the configured fields, for
    one decoded record. *)
Fixpoint indexRecord (tblName : string) (fldNames : list string)
    (rec : gmap string json) (fileId : string) : M unit :=
  match fldNames with
  | [] => mret tt
  | fldName :: rest =>
      if decide (fldName = "tags") then indexRecord tblName rest rec fileId
      else
        fldValue ← assertString (rec !! fldName);
        s ← get;
        match fldBucket tblName fldName fldValue s with
        | Some fileIds =>
            if stringInSlice fileId fileIds then mret tt
            else setFldBucket tblName fldName fldValue (fileIds ++ [fileId])
        | None => setFldBucket tblName fldName fldValue [fileId]
        end;;
        indexRecord tblName rest rec fileId
  end.

(** The loop of [initNonTagsIndexes] over the file ids; [rec] is declared
    once, before the loop, and every iteration unmarshals into it. *)
Fixpoint nonTagsLoop (tblName : string) (fldNames fileIds : list string)
    (rec : gmap string json) : M error :=
  match fileIds with
  | [] => mret None
  | fileId :: rest =>
      '(data, err) ← ReadFile tblName fileId;
      match err with
      | Some e => mret (Some e)
      | None =>
          let '(rec', err) := Unmarshal data rec in
          match err with
          | Some e => mret (Some e)
          | None =>
              indexRecord tblName fldNames rec' fileId;;
              nonTagsLoop tblName fldNames rest rec'
          end
      end
  end.

Definition initNonTagsIndexes (tblName : string) : M error :=
  (* delete every key of the table's map in place, then install a new map *)
  modify (λ s, set_fldIndexes (alter (λ _, ∅) tblName (fldIndexes s)) s);;
  modify (λ s, set_fldIndexes (<[tblName := ∅]> (fldIndexes s)) s);;
  s ← get;
  let fldNames := default [] (fieldsToIndex s !! tblName) in
  modify (λ s, set_fldIndexes
                 (<[tblName :=
                    foldl (λ t fldName,
                             if decide (fldName = "tags") then t
                             else <[fldName := ∅]> t)
                          ∅ fldNames]> (fldIndexes s)) s);;
  s ← get;
  nonTagsLoop tblName fldNames (fileIdsInDataDir tblName s) ∅.

(** The loop of [initTagsIndex] over the tags of one record; [tagIndex] is the
    local map under construction. *)
Fixpoint indexTags (tags : list json) (fileId : string)
    (tagIndex : gmap string (list string)) : M (gmap string (list string)) :=
  match tags with
  | [] => mret tagIndex
  | t :: rest =>
      tag ← assertString (Some t);
      match tagIndex !! tag with
      | Some fileIds =>
          if stringInSlice fileId fileIds then indexTags rest fileId tagIndex
          else indexTags rest fileId (<[tag := fileIds ++ [fileId]]> tagIndex)
      | None => indexTags rest fileId (<[tag := [fileId]]> tagIndex)
      end
  end.

Fixpoint tagsLoop (tblName : string) (fileIds : list string)
    (rec : gmap string json) (tagIndex : gmap string (list string))
    : M (gmap string (list string) * error) :=
  match fileIds with
  | [] => mret (tagIndex, None)
  | fileId :: rest =>
      '(data, err) ← ReadFile tblName fileId;
      match err with
      | Some e => mret (tagIndex, Some e)
      | None =>
          let '(rec', err) := Unmarshal data rec in
          match err with
          | Some e => mret (tagIndex, Some e)
          | None =>
              tags ← assertSlice (rec' !! "tags");
              tagIndex' ← indexTags tags fileId tagIndex;
              tagsLoop tblName rest rec' tagIndex'
          end
      end
  end.

Definition initTagsIndex (tblName : string) : M error :=
  (* delete all the entries of the table's current map, in place *)
  modify (λ s, set_tagIndexes (alter (λ _, ∅) tblName (tagIndexes s)) s);;
  s ← get;
  '(tagIndex, err) ← tagsLoop tblName (fileIdsInDataDir tblName s) ∅ ∅;
  match err with
  | Some e => mret (Some e)
  | None =>
      modify (λ s, set_tagIndexes (<[tblName := tagIndex]> (tagIndexes s)) s);;
      mret None
  end.

(** [initTblIndexes].  The value returned by [initTagsIndex] is not bound:
    the test that follows the call reads the [err] of [initNonTagsIndexes],
    which is nil on that path. *)
Definition initTblIndexes (tblName : string) : M error :=
  s ← get;
  match fieldsToIndex s !! tblName with
  | Some fldNames =>
      err ← initNonTagsIndexes tblName;
      match err with
      | Some e => mret (Some e)
      | None =>
          if stringInSlice "tags" fldNames then
            initTagsIndex tblName;;
            match err with
            | Some e => mret (Some e)
            | None => mret None
            end
          else mret None
      end
  | None => mret None
  end.

(** [nextAvailableFileId] *)
Fixpoint atoiAll (fs : list string) (fileIds : list Z) : list Z * error :=
  match fs with
  | [] => (fileIds, None)
  | f :: rest =>
      let '(fileId, err) := Atoi f in
      match err with
      | Some e => ([], Some e)
      | None => atoiAll rest (fileIds ++ [fileId])
      end
  end.

Definition nextAvailableFileId (tblName : string) (s : state) : string * error :=
  let '(fileIds, err) := atoiAll (fileIdsInDataDir tblName s) [] in
  match err with
  | Some e => ("", Some e)
  | None =>
      match last (merge_sort Z.le fileIds) with
      | None => ("1", None)
      | Some lastFileId => (Itoa (wrapInt (lastFileId + 1)), None)
      end
  end.

(** ** Public DB Methods *)

Definition FindAllIds (tblName : string) : M (list string * error) :=
  RLock tblName;;
  defer (RUnlock tblName)
    (s ← get; mret (fileIdsInDataDir tblName s, None)).

(** The scanning loop of [FindAllIdsForField]. *)
Fixpoint scanLoop (tblName searchField searchValue : string)
    (fileIds : list string) (rec : gmap string json) (ids : list string)
    : M (list string * error) :=
  match fileIds with
  | [] => mret (ids, None)
  | fileId :: rest =>
      '(data, err) ← ReadFile tblName fileId;
      match err with
      | Some e => mret ([], Some e)
      | None =>
          let '(rec', err) := Unmarshal data rec in
          match err with
          | Some e => mret ([], Some e)
          | None =>
              v ← assertString (rec' !! searchField);
              scanLoop tblName searchField searchValue rest rec'
                (if decide (v = searchValue) then ids ++ [fileId] else ids)
          end
      end
  end.

Definition scanIdsForField (tblName searchField searchValue : string)
    : M (list string * error) :=
  s ← get;
  scanLoop tblName searchField searchValue (fileIdsInDataDir tblName s) ∅ [].

Definition FindAllIdsForField (tblName searchField searchValue : string)
    : M (list string * error) :=
  RLock tblName;;
  defer (RUnlock tblName)
    (s ← get;
     match fldBucket tblName searchField searchValue s with
     | Some ids => mret (ids, None)
     | None => scanIdsForField tblName searchField searchValue
     end).

Definition FindFirstIdForField (tblName searchField searchValue : string)
    : M (string * error) :=
  '(results, err) ← FindAllIdsForField tblName searchField searchValue;
  match err with
  | Some e => mret ("", Some e)
  | None =>
      match results with
      | [] => panic IndexOutOfRange
      | id :: _ => mret (id, None)
      end
  end.

(** The counting loops of [FindAllIdsForTags].  The counters are Go [int]s;
    each is bounded by the number of entries of the index, so they are
    carried as [nat]. *)
Definition countFileIds (fileIds : list string) (m : gmap string nat)
    : gmap string nat :=
  foldl (λ m fileId,
           match m !! fileId with
           | Some numOfOccurences => <[fileId := S numOfOccurences]> m
           | None => <[fileId := 1%nat]> m
           end) m fileIds.

Definition countTags (tagIndex : gmap string (list string))
    (searchTags : list string) (m : gmap string nat) : gmap string nat :=
  foldl (λ m tag,
           match tagIndex !! tag with
           | Some fileIds => countFileIds fileIds m
           | None => m
           end) m searchTags.

(** The final loop ranges over a Go map, whose iteration order is not fixed;
    the order of [map_to_list] stands for it. *)
Definition FindAllIdsForTags (tblName : string) (searchTags : list string)
    : M (list string * error) :=
  RLock tblName;;
  defer (RUnlock tblName)
    (s ← get;
     if decide (length searchTags ≠ 0%nat) then
       let possibleMatchingFileIdsMap :=
         countTags (default ∅ (tagIndexes s !! tblName)) searchTags ∅ in
       let searchTagsLen := length searchTags in
       mret (omap (λ kv : string * nat,
                     if decide (kv.2 = searchTagsLen) then Some kv.1 else None)
                  (map_to_list possibleMatchingFileIdsMap), None)
     else mret ([], None)).

Definition Create (tblName : string) (rec : record) : M (string * error) :=
  Lock tblName;;
  defer (Unlock tblName)
    (s ← get;
     let '(fileId, err) := nextAvailableFileId tblName s in
     match err with
     | Some e => mret ("", Some e)
     | None =>
         let '(marshalledRec, err) := Marshal rec in
         match err with
         | Some e => mret ("", Some e)
         | None =>
             err ← WriteFile tblName fileId marshalledRec;
             match err with
             | Some e => mret ("", Some e)
             | None =>
                 err ← initTblIndexes tblName;
                 match err with
                 | Some e => mret (fileId, Some e)
                 | None => mret (fileId, None)
                 end
             end
         end
     end).

Definition Update (tblName : string) (rec : record) (fileId : string) : M error :=
  Lock tblName;;
  defer (Unlock tblName)
    (let '(_, err) := Atoi fileId in
     match err with
     | Some e => mret (Some e)
     | None =>
         let '(marshalledRec, err) := Marshal rec in
         match err with
         | Some e => mret (Some e)
         | None =>
             err ← WriteFile tblName fileId marshalledRec;
             match err with
             | Some e => mret (Some e)
             | None =>
                 err ← initTblIndexes tblName;
                 match err with
                 | Some e => mret (Some e)
                 | None => mret None
                 end
             end
         end
     end).

Definition Delete (tblName : string) (fileId : string) : M error :=
  let '(_, err) := Atoi fileId in
  match err with
  | Some e => mret (Some e)
  | None =>
      Lock tblName;;
      defer (Unlock tblName)
        (err ← Remove tblName fileId;
         match err with
         | Some e => mret (Some e)
         | None =>
             err ← initTblIndexes tblName;
             match err with
             | Some e => mret (Some e)
             | None => mret None
             end
         end)
  end.

(** [OpenDB].  [tree] holds the table directories found under [dbPath]; every
    one of them gets a lock.  [performChecks] wants a directory for every
    configured table.  The tables of [fieldsToIndex] are then indexed in the
    order in which the map is ranged over. *)
Fixpoint initAllTables (tblNames : list string) : M error :=
  match tblNames with
  | [] => mret None
  | tblName :: rest =>
      err ← initTblIndexes tblName;
      match err with
      | Some e => mret (Some e)
      | None => initAllTables rest
      end
  end.

Definition OpenDB (tree : gmap string (gmap string dirent)) (fl : list bool)
    (fieldsToIndex : gmap string (list string)) : outcome error * state :=
  let db := mkState tree ∅ fl [] ∅ fieldsToIndex ∅ ∅ in
  if decide (dom fieldsToIndex ⊆ dom tree) then
    initAllTables (map_to_list fieldsToIndex).*1
      (mkState tree ∅ fl [] (dom tree) fieldsToIndex ∅ ∅)
  else (Ret (Some ErrNotExist), db).

(** ** The earlier variant of the package: a tag index only *)

Module Legacy.

(** The deleting loop ranges over the keys of [db.tagIndexes], the table
    names, and deletes those keys from the table's own map. *)
Definition initTagsIndex (tblName : string) : M error :=
  modify (λ s, set_tagIndexes
                 (alter (filter (λ kv : string * list string,
                                   kv.1 ∉ dom (tagIndexes s)))
                        tblName (tagIndexes s)) s);;
  s ← get;
  '(tagIndex, err) ← tagsLoop tblName (fileIdsInDataDir tblName s) ∅ ∅;
  match err with
  | Some e => mret (Some e)
  | None =>
      modify (λ s, set_tagIndexes (<[tblName := tagIndex]> (tagIndexes s)) s);;
      mret None
  end.

(** The dynamic type of a [searchValue interface{}]. *)
Inductive searchValue : Type :=
  | SInt (i : Z)
  | SInt32 (i : Z)
  | SInt64 (i : Z)
  | SString (v : string)
  | SOther.

(** [rec[searchField].(int)], and likewise for [int32] and [int64]: a value
    decoded from JSON is never of an integer type, so the assertion fails
    whatever the map holds. *)
Definition assertInt (x : option json) : M Z := panic InterfaceConversion.

Fixpoint findFirstLoop (tblName searchField : string) (sv : searchValue)
    (fileIds : list string) (rec : gmap string json) : M (string * error) :=
  match fileIds with
  | [] => mret ("", None)
  | fileId :: rest =>
      '(data, err) ← ReadFile tblName fileId;
      match err with
      | Some e => mret ("", Some e)
      | None =>
          let '(rec', err) := Unmarshal data rec in
          match err with
          | Some e => mret ("", Some e)
          | None =>
              match sv with
              | SInt i | SInt32 i | SInt64 i =>
                  x ← assertInt (rec' !! searchField);
                  if decide (x = i) then mret (fileId, None)
                  else findFirstLoop tblName searchField sv rest rec'
              | SString v =>
                  x ← assertString (rec' !! searchField);
                  if decide (x = v) then mret (fileId, None)
                  else findFirstLoop tblName searchField sv rest rec'
              | SOther => findFirstLoop tblName searchField sv rest rec'
              end
          end
      end
  end.

Definition FindFirstIdForField (tblName searchField : string)
    (sv : searchValue) : M (string * error) :=
  RLock tblName;;
  defer (RUnlock tblName)
    (s ← get;
     findFirstLoop tblName searchField sv (fileIdsInDataDir tblName s) ∅).

(** [FindIdsForTags] is, statement for statement, [FindAllIdsForTags]. *)
Definition FindIdsForTags : string → list string → M (list string * error) :=
  FindAllIdsForTags.

Definition Create (tblName : string) (rec : record) : M (string * error) :=
  Lock tblName;;
  defer (Unlock tblName)
    (s ← get;
     let '(fileId, err) := nextAvailableFileId tblName s in
     match err with
     | Some e => mret ("", Some e)
     | None =>
         let '(marshalledRec, err) := Marshal rec in
         match err with
         | Some e => mret ("", Some e)
         | None =>
             err ← WriteFile tblName fileId marshalledRec;
             match err with
             | Some e => mret ("", Some e)
             | None =>
                 err ← initTagsIndex tblName;
                 match err with
                 | Some e => mret ("", Some e)
                 | None => mret (fileId, None)
                 end
             end
         end
     end).

Definition Update (tblName : string) (rec : record) (fileId : string) : M error :=
  Lock tblName;;
  defer (Unlock tblName)
    (let '(_, err) := Atoi fileId in
     match err with
     | Some e => mret (Some e)
     | None =>
         let '(marshalledRec, err) := Marshal rec in
         match err with
         | Some e => mret (Some e)
         | None =>
             err ← WriteFile tblName fileId marshalledRec;
             match err with
             | Some e => mret (Some e)
             | None =>
                 initTagsIndex tblName;;
                 match err with
                 | Some e => mret (Some e)
                 | None => mret None
                 end
             end
         end
     end).

Definition Delete (tblName : string) (fileId : string) : M error :=
  let '(_, err) := Atoi fileId in
  match err with
  | Some e => mret (Some e)
  | None =>
      Lock tblName;;
      defer (Unlock tblName)
        (err ← Remove tblName fileId;
         match err with
         | Some e => mret (Some e)
         | None =>
             err ← initTagsIndex tblName;
             match err with
             | Some e => mret (Some e)
             | None => mret None
             end
         end)
  end.

End Legacy.

(** ** The three writers, as one family *)

Inductive mutation : Type :=
  | MCreate (rec : record)
  | MUpdate (rec : record) (fileId : string)
  | MDelete (fileId : string).

Definition runMutation (tblName : string) (m : mutation) : M error :=
  match m with
  | MCreate rec => '(_, err) ← Create tblName rec; mret err
  | MUpdate rec fileId => Update tblName rec fileId
  | MDelete fileId => Delete tblName fileId
  end.

Definition runLegacyMutation (tblName : string) (m : mutation) : M error :=
  match m with
  | MCreate rec => '(_, err) ← Legacy.Create tblName rec; mret err
  | MUpdate rec fileId => Legacy.Update tblName rec fileId
  | MDelete fileId => Legacy.Delete tblName fileId
  end.

(** ** Notions used in the statements *)

(** A computation keeps the relation [R] between the state it starts from
    and the state it ends in, whatever its outcome. *)
Definition preserves {A} (R : relation state) (m : M A) : Prop :=
  ∀ s, R s (m s).2.

(** The index entries of every table other than [tblName] are the same. *)
Definition otherTablesSame (tblName : string) : relation state := λ s s',
  ∀ other, other ≠ tblName →
    fldIndexes s' !! other = fldIndexes s !! other ∧
    tagIndexes s' !! other = tagIndexes s !! other.

(** Files, directory permissions, configuration, locks and lock log are the
    same, and a substrate
    without pending failures stays so. *)
Definition sameStore : relation state := λ s s',
  (files s' = files s ∧ unlistable s' = unlistable s) ∧
  fieldsToIndex s' = fieldsToIndex s ∧
  rwLocks s' = rwLocks s ∧ lockLog s' = lockLog s ∧
  (faults s = [] → faults s' = []).

(** The tag index is the same. *)
Definition sameTagIndexes : relation state := λ s s',
  tagIndexes s' = tagIndexes s.

(** ** What the indexes are compared with *)

(** The value that the document of a file gives, by itself, to a field:
    what decoding it into a fresh map yields. *)
Definition fieldOf (data : fileData) (fldName : string) : option json :=
  (Unmarshal data ∅).1 !! fldName.

(** The record file of [fileId] exists in the table and decodes with
    [fldName] equal to [j]. *)
Definition recordHas (s : state) (tblName fileId fldName : string) (j : json)
    : Prop :=
  ∃ data, lookupFile (files s) tblName fileId = Some (RegularFile data) ∧
          fieldOf data fldName = Some j.

Definition inFldBucket (s : state) (tblName fldName fldValue fileId : string)
    : Prop :=
  ∃ ids, fldBucket tblName fldName fldValue s = Some ids ∧ fileId ∈ ids.

Definition tagBucket (tblName tag : string) (s : state) : option (list string) :=
  tagIndexes s !! tblName ≫= λ t, t !! tag.

Definition inTagBucket (s : state) (tblName tag fileId : string) : Prop :=
  ∃ ids, tagBucket tblName tag s = Some ids ∧ fileId ∈ ids.

(** The maps that the loops of the builders and of the scan see, file after
    file: each document is unmarshalled into the map left by the previous
    one.  [None] when a file is missing or does not decode. *)
Fixpoint decodeAll (look : string → option dirent) (fileIds : list string)
    (rec : gmap string json) : option (list (string * gmap string json)) :=
  match fileIds with
  | [] => Some []
  | fileId :: rest =>
      match look fileId with
      | Some (RegularFile data) =>
          match Unmarshal data rec with
          | (rec', None) => ((fileId, rec') ::.) <$> decodeAll look rest rec'
          | _ => None
          end
      | _ => None
      end
  end.

(** The ids, among the records as the loop saw them, whose field holds the
    string searched for. *)
Definition matchingIds (fldName fldValue : string)
    (seen : list (string * gmap string json)) : list string :=
  omap (λ p : string * gmap string json,
          match p.2 !! fldName with
          | Some (JStr v) => if decide (v = fldValue) then Some p.1 else None
          | _ => None
          end) seen.

(** The buckets of the tag index hold no id twice. *)
Definition dedupedTags (tblName : string) (s : state) : Prop :=
  ∀ tag ids, tagBucket tblName tag s = Some ids → NoDup ids.

(** The indexes of the table are what a rebuild computes from its files:
    [seen] are the records as the loops decoded them, every configured
    field other than [tags] held a string in each, and the buckets hold
    exactly their ids; likewise for the tag index when [tags] is
    configured. *)
Definition rebuiltFrom (fldNames : list string) (tblName : string) (s : state)
    (seen : list (string * gmap string json)) : Prop :=
  faults s = [] ∧
  decodeAll (lookupFile (files s) tblName) (fileIdsInDataDir tblName s) ∅
    = Some seen ∧
  (∀ x r, (x, r) ∈ seen →
     ∀ f, f ∈ fldNames → f ≠ "tags" → ∃ v, r !! f = Some (JStr v)) ∧
  (∀ f v x, inFldBucket s tblName f v x ↔
            f ∈ fldNames ∧ f ≠ "tags" ∧
            ∃ r, (x, r) ∈ seen ∧ r !! f = Some (JStr v)) ∧
  ("tags" ∈ fldNames →
   dedupedTags tblName s ∧
   ∀ tag x, inTagBucket s tblName tag x ↔
            ∃ r l, (x, r) ∈ seen ∧ r !! "tags" = Some (JArr l) ∧ JStr tag ∈ l).

(** The document of the file carries every one of the fields itself. *)
Definition ownsFields (fldNames : list string) (e : option dirent) : Prop :=
  match e with
  | Some (RegularFile data) => Forall (λ fldName, is_Some (fieldOf data fldName)) fldNames
  | _ => False
  end.

Global Instance ownsFields_dec fldNames e : Decision (ownsFields fldNames e).
Proof. destruct e as [[data|]|]; simpl; apply _. Defined.

(** Every record of the table carries every configured field itself. *)
Definition selfContained (tblName : string) (s : state) : Prop :=
  Forall (λ fileId, ownsFields (default [] (fieldsToIndex s !! tblName))
                               (lookupFile (files s) tblName fileId))
         (fileIdsInDataDir tblName s).

Global Instance selfContained_dec tblName s : Decision (selfContained tblName s).
Proof. unfold selfContained. apply _. Defined.

(** ** Example stores

    A store with a table [posts], indexed on [author] and [tags], and a table
    [notes] that has a directory but no index configuration. *)

Definition post (author : string) (tags : list string) : record :=
  Value (JObj [("author", JStr author); ("tags", JArr (JStr <$> tags))]).

Definition exConfig : gmap string (list string) :=
  {[ "posts" := ["author"; "tags"] ]}.
Definition exTree : gmap string (gmap string dirent) :=
  {[ "posts" := ∅; "notes" := ∅ ]}.

(** The store right after [OpenDB]. *)
Definition exOpen : state := (OpenDB exTree [] exConfig).2.
(** After [create({author:"alice", tags:["go","db"]})]. *)
Definition exOne : state := (Create "posts" (post "alice" ["go"; "db"]) exOpen).2.
(** After [create({author:"bob", tags:["go"]})] as well. *)
Definition exTwo : state := (Create "posts" (post "bob" ["go"]) exOne).2.

(** A store whose [posts] table is indexed on [tags] only, still empty, and
    whose substrate will fail its third call. *)
Definition exTagsOnly : state :=
  set_faults [false; false; true]
    (OpenDB exTree [] {[ "posts" := ["tags"] ]}).2.

(** The [posts] table holding one record, whose id is the largest [int]. *)
Definition exMax : state :=
  (Update "posts" (post "zed" []) "9223372036854775807" exOpen).2.


(** The identifiers of the table's records, as [strconv.Atoi] reads them. *)
Definition parsedIds (tblName : string) (s : state) : list Z :=
  (λ f, (Atoi f).1) <$> fileIdsInDataDir tblName s.

(** The store of [exOpen] after the directory of [notes] has been removed
    behind the back of the open database. *)
Definition exGone : state := set_files (delete "notes" (files exOpen)) exOpen.

(** The store of [exTwo] after the read permission of the directory of
    [posts] has been taken away. *)
Definition exNoRead : state := set_unlistable {[ "posts" ]} exTwo.

(** A store with two indexed tables, each holding one record. *)
Definition exBoth : state :=
  (Create "users" (Value (JObj [("name", JStr "root")]))
     (Create "posts" (post "alice" ["go"])
        (OpenDB {[ "posts" := ∅; "users" := ∅ ]} []
                {[ "posts" := ["author"; "tags"]; "users" := ["name"] ]}).2).2).2.

(** ** Find, Close

    [Find] decodes into a record of the caller's own type and then calls the
    caller's [AfterFind] on it.  The record type [R], what [json.Unmarshal]
    makes of a file for that type, and the hook are the caller's: they are
    parameters here.  The file ids handed to [filePath] are plain names. *)

Section find.
Context {R : Type}.
Context (unmarshalInto : fileData → R → R * error).
Context (afterFind : R → string → M unit).

(** [loadRec]: the record comes back as it is when the file cannot be read,
    and as [json.Unmarshal] leaves it otherwise. *)
Definition loadRec (tblName : string) (rec : R) (fileId : string)
    : M (R * error) :=
  '(data, err) ← ReadFile tblName fileId;
  match err with
  | Some e => mret (rec, Some e)
  | None => mret (unmarshalInto data rec)
  end.

Definition Find (tblName : string) (rec : R) (fileId : string)
    : M (R * error) :=
  RLock tblName;;
  defer (RUnlock tblName)
    ('(rec', err) ← loadRec tblName rec fileId;
     match err with
     | Some e => mret (rec', Some e)
     | None => afterFind rec' fileId;; mret (rec', None)
     end).
End find.

(** [Close] takes and releases the write lock of every table in turn, in the
    order in which the map of locks is ranged over. *)
Definition Close : M unit :=
  s ← get;
  modify (λ s0, foldl (λ s1 tblName, Unlock tblName (logEvent (EvLock tblName) s1))
                      s0 (elements (rwLocks s))).

(** ** Further notions used in the statements *)

(** The field index is the same. *)
Definition sameFldIndexes : relation state := λ s s',
  fldIndexes s' = fldIndexes s.

(** Nothing but the lock log and the failure schedule has changed. *)
Definition sameData : relation state := λ s s',
  (files s' = files s ∧ unlistable s' = unlistable s) ∧
  fieldsToIndex s' = fieldsToIndex s ∧
  rwLocks s' = rwLocks s ∧ fldIndexes s' = fldIndexes s ∧
  tagIndexes s' = tagIndexes s.

(** Everything but the files is the same, and a substrate without pending
    failures stays so. *)
Definition sameButFiles : relation state := λ s s',
  unlistable s' = unlistable s ∧
  fieldsToIndex s' = fieldsToIndex s ∧ rwLocks s' = rwLocks s ∧
  lockLog s' = lockLog s ∧ fldIndexes s' = fldIndexes s ∧
  tagIndexes s' = tagIndexes s ∧ (faults s = [] → faults s' = []).

(** Every file other than [fileId] of table [tblName] is as before. *)
Definition otherFilesSame (tblName fileId : string) : relation state := λ s s',
  (∀ x, x ≠ fileId →
     lookupFile (files s') tblName x = lookupFile (files s) tblName x) ∧
  (∀ other x, other ≠ tblName →
     lookupFile (files s') other x = lookupFile (files s) other x).



(** ** Further example stores *)



(** [exTwo] after [create({author:"alice", tags:[]})] during which the
    substrate failed its third call, the second read of the rebuild. *)
Definition exStale : state :=
  (Create "posts" (post "alice" []) (set_faults [false; false; true] exTwo)).2.

(** [exOne] after [create({tags:[]})], a record without author. *)
Definition exLeak : state :=
  (Create "posts" (Value (JObj [("tags", JArr [])])) exOne).2.

(** [exOpen] after [create({author:"amy", tags:["go"]})] on [notes], the
    table without index configuration. *)
Definition exNotes : state := (Create "notes" (post "amy" ["go"]) exOpen).2.

(** ** The tag query as the specification words it

    The same counting, but an id is kept when its count equals the number
    of distinct requested tags. *)
Definition FindAllIdsForTags_distinct (tblName : string)
    (searchTags : list string) : M (list string * error) :=
  RLock tblName;;
  defer (RUnlock tblName)
    (s ← get;
     if decide (length searchTags ≠ 0%nat) then
       let possibleMatchingFileIdsMap :=
         countTags (default ∅ (tagIndexes s !! tblName)) searchTags ∅ in
       let distinctTagsLen := length (remove_dups searchTags) in
       mret (omap (λ kv : string * nat,
                     if decide (kv.2 = distinctTagsLen) then Some kv.1 else None)
                  (map_to_list possibleMatchingFileIdsMap), None)
     else mret ([], None)).

(** ** The counters of the tag query *)

(** The count of an id in the map of possible matches, 0 when the id is
    no key of it. *)
Definition counter (m : gmap string nat) (fileId : string) : nat :=
  default 0%nat (m !! fileId).

(** No key of the map has count 0. *)
Definition positive (m : gmap string nat) : Prop :=
  ∀ fileId n, m !! fileId = Some n → (0 < n)%nat.

(** * Proofs *)

(** ** Running the monad *)

Lemma run_bind {A B} (m : M A) (f : A → M B) s :
  (m ≫= f) s =
  match m s with
  | (Ret a, s') => f a s'
  | (Panic p, s') => (Panic p, s')
  end.
Proof. reflexivity. Qed.

Lemma run_ret {A} (a : A) s : mret (M := M) a s = (Ret a, s).
Proof. reflexivity. Qed.

Lemma run_defer {A} d (body : M A) s :
  defer d body s = ((body s).1, d (body s).2).
Proof. unfold defer. by destruct (body s). Qed.

Lemma acquire_held e tblName s :
  tblName ∈ rwLocks s → acquire e tblName s = (Ret tt, logEvent e s).
Proof. intros H. unfold acquire. by rewrite decide_True. Qed.

Lemma acquire_nil e tblName s :
  tblName ∉ rwLocks s → acquire e tblName s = (Panic NilPointerDereference, s).
Proof. intros H. unfold acquire. by rewrite decide_False. Qed.

(** Closed decidable facts about the example stores, by evaluation. *)
Ltac by_compute := apply (bool_decide_unpack _); vm_compute; exact I.

Ltac unfold_monad :=
  unfold mbind, M_bind, mret, M_ret, get, modify, panic, defer in *.

(** ** FindAllIds *)

Lemma fileIdsInDataDir_logEvent e tblName s :
  fileIdsInDataDir tblName (logEvent e s) = fileIdsInDataDir tblName s.
Proof. reflexivity. Qed.

Lemma fileIdsInDataDir_missing tblName s :
  files s !! tblName = None → fileIdsInDataDir tblName s = [].
Proof. intros H. unfold fileIdsInDataDir, ReadDir. by rewrite H. Qed.

Lemma FindAllIds_run tblName s :
  tblName ∈ rwLocks s →
  FindAllIds tblName s =
    (Ret (fileIdsInDataDir tblName s, None),
     RUnlock tblName (logEvent (EvRLock tblName) s)).
Proof.
  intros H. unfold FindAllIds, RLock. rewrite run_bind, acquire_held by done.
  by rewrite run_defer.
Qed.

Lemma FindAllIds_never_err tblName s ids e :
  (FindAllIds tblName s).1 ≠ Ret (ids, Some e).
Proof.
  destruct (decide (tblName ∈ rwLocks s)) as [H|H].
  - rewrite FindAllIds_run by done. simpl. congruence.
  - unfold FindAllIds, RLock. rewrite run_bind, acquire_nil by done. done.
Qed.

Lemma ReadDir_failure tblName s :
  files s !! tblName = None ∨ tblName ∈ unlistable s →
  (ReadDir tblName s).2 ≠ None ∧ fileIdsInDataDir tblName s = [].
Proof.
  intros H. unfold fileIdsInDataDir, ReadDir.
  destruct (files s !! tblName) as [d|] eqn:Ed; [|done].
  destruct H as [H|H]; [done|]. by rewrite decide_True.
Qed.

(** C10, as amended: [FindAllIds] never returns a non-nil error.  On a table
    that owns a lock it returns the ids of the directory listing with a nil
    error; on a table that owns none it panics on the nil mutex and leaves
    the state alone.  When the table's directory is missing or cannot be
    read, [ReadDir] fails, the failure is dropped and the id list is
    empty. *)
Theorem FindAllIds_nil_error tblName s :
  (∀ ids e, (FindAllIds tblName s).1 ≠ Ret (ids, Some e)) ∧
  FindAllIds tblName s =
    (if decide (tblName ∈ rwLocks s)
     then (Ret (fileIdsInDataDir tblName s, None),
           RUnlock tblName (logEvent (EvRLock tblName) s))
     else (Panic NilPointerDereference, s)) ∧
  (files s !! tblName = None ∨ tblName ∈ unlistable s →
   (ReadDir tblName s).2 ≠ None ∧ fileIdsInDataDir tblName s = []).
Proof.
  split; [intros; apply FindAllIds_never_err|]. split.
  - case_decide as H.
    + by apply FindAllIds_run.
    + unfold FindAllIds, RLock. by rewrite run_bind, acquire_nil.
  - apply ReadDir_failure.
Qed.

Lemma FindAllIds_nil_error_witness :
  (files exGone !! "notes" = None ∨ "notes" ∈ unlistable exGone) ∧
  (ReadDir "notes" exGone).2 ≠ None ∧
  (FindAllIds "notes" exGone).1 = Ret ([], None) ∧
  ("posts" ∈ unlistable exNoRead ∧
   (FindAllIds "posts" exNoRead).1 = Ret ([], None)).
Proof.
  assert (files exGone !! "notes" = None ∨ "notes" ∈ unlistable exGone) as HF
    by (left; vm_compute; reflexivity).
  assert (files exNoRead !! "posts" = None ∨ "posts" ∈ unlistable exNoRead)
    as HU by (right; by_compute).
  destruct (FindAllIds_nil_error "notes" exGone) as (_ & E & H).
  destruct (H HF) as [E1 E2].
  destruct (FindAllIds_nil_error "posts" exNoRead) as (_ & E' & H').
  destruct (H' HU) as [E1' E2'].
  split; [exact HF|]. split; [exact E1|]. split.
  - rewrite E, E2. vm_compute. reflexivity.
  - split; [by_compute|]. rewrite E', E2'. vm_compute. reflexivity.
Defined.

(** C10, as stated, fails on a table name that owns no lock: the call
    dereferences a nil mutex and does not return. *)
Lemma FindAllIds_unknown_table :
  (FindAllIds "ghost" exOpen).1 = Panic NilPointerDereference ∧
  ¬ ∃ ids, (FindAllIds "ghost" exOpen).1 = Ret (ids, None).
Proof.
  assert ((FindAllIds "ghost" exOpen).1 = Panic NilPointerDereference) as E
    by (vm_compute; reflexivity).
  split; [exact E|]. intros [ids H]. rewrite E in H. discriminate.
Qed.

(** ** Update and Delete on an identifier that is not an integer *)

Lemma Update_invalid_id tblName rec fileId e s :
  (Atoi fileId).2 = Some e → tblName ∈ rwLocks s →
  Update tblName rec fileId s =
    (Ret (Some e), Unlock tblName (logEvent (EvLock tblName) s)).
Proof.
  intros HA HL. unfold Update, Lock. rewrite run_bind, acquire_held by done.
  rewrite run_defer. destruct (Atoi fileId) as [n err]. simpl in HA. by subst.
Qed.

Lemma Update_unknown_table tblName rec fileId s :
  tblName ∉ rwLocks s →
  Update tblName rec fileId s = (Panic NilPointerDereference, s).
Proof.
  intros HL. unfold Update, Lock. by rewrite run_bind, acquire_nil.
Qed.

Lemma Delete_invalid_id tblName fileId e s :
  (Atoi fileId).2 = Some e → Delete tblName fileId s = (Ret (Some e), s).
Proof.
  intros HA. unfold Delete. destruct (Atoi fileId) as [n err].
  simpl in HA. by subst.
Qed.

(** C7: on an identifier that is not an integer, [Update] returns the
    [strconv] error and leaves files and indexes alone, but only after it has
    taken and released the table's lock; [Delete], on the same identifier,
    returns before any lock operation. *)
Theorem Update_validates_under_lock :
  let r := Update "posts" (post "carol" []) "abc" exTwo in
  r.1 = Ret (Some ErrAtoiSyntax) ∧
  lockLog r.2 = lockLog exTwo ++ [EvLock "posts"; EvUnlock "posts"] ∧
  files r.2 = files exTwo ∧
  fldIndexes r.2 = fldIndexes exTwo ∧ tagIndexes r.2 = tagIndexes exTwo ∧
  Delete "posts" "abc" exTwo = (Ret (Some ErrAtoiSyntax), exTwo) ∧
  (Update "ghost" (post "carol" []) "abc" exTwo).1 = Panic NilPointerDereference.
Proof.
  assert ("posts" ∈ rwLocks exTwo) as HL
    by by_compute.
  assert ("ghost" ∉ rwLocks exTwo) as HG
    by by_compute.
  cbv zeta. rewrite (Update_invalid_id _ _ "abc" ErrAtoiSyntax) by done.
  rewrite (Delete_invalid_id _ "abc" ErrAtoiSyntax) by done.
  rewrite Update_unknown_table by done.
  repeat apply conj; vm_compute; reflexivity.
Qed.

(** ** FindFirstIdForField *)

Lemma FindFirstIdForField_run tblName searchField searchValue s :
  FindFirstIdForField tblName searchField searchValue s =
  match FindAllIdsForField tblName searchField searchValue s with
  | (Ret (_, Some e), s') => (Ret ("", Some e), s')
  | (Ret ([], None), s') => (Panic IndexOutOfRange, s')
  | (Ret (id :: _, None), s') => (Ret (id, None), s')
  | (Panic p, s') => (Panic p, s')
  end.
Proof.
  unfold FindFirstIdForField. rewrite run_bind.
  destruct (FindAllIdsForField _ _ _ s) as [[[ids [e|]]|p] s']; try done;
    by destruct ids.
Qed.

(** In [db.go] a search without a match ends in an index-out-of-range panic,
    and a search with matches returns the first of them. *)
Lemma FindFirstIdForField_no_match tblName searchField searchValue s :
  (FindAllIdsForField tblName searchField searchValue s).1 = Ret ([], None) →
  (FindFirstIdForField tblName searchField searchValue s).1 = Panic IndexOutOfRange.
Proof.
  intros H. rewrite FindFirstIdForField_run.
  destruct (FindAllIdsForField _ _ _ s) as [[[ids [e|]]|p] s']; simplify_eq/=; done.
Qed.

Lemma FindFirstIdForField_first tblName searchField searchValue s id ids :
  (FindAllIdsForField tblName searchField searchValue s).1 = Ret (id :: ids, None) →
  (FindFirstIdForField tblName searchField searchValue s).1 = Ret (id, None).
Proof.
  intros H. rewrite FindFirstIdForField_run.
  destruct (FindAllIdsForField _ _ _ s) as [[[ids' [e|]]|p] s']; simplify_eq/=; done.
Qed.

Lemma Legacy_findFirstLoop_nil tblName searchField sv rec s :
  Legacy.findFirstLoop tblName searchField sv [] rec s = (Ret ("", None), s).
Proof. reflexivity. Qed.

(** C5: in the earlier variant a search that matches no record returns the
    empty string with a nil error; [db.go] on the same store ends in an
    index-out-of-range panic, and returns the first id when there is one. *)
Theorem Legacy_FindFirstIdForField_silent :
  (Legacy.FindFirstIdForField "posts" "author" (Legacy.SString "carol") exTwo).1
    = Ret ("", None) ∧
  (FindFirstIdForField "posts" "author" "carol" exTwo).1 = Panic IndexOutOfRange ∧
  (FindFirstIdForField "posts" "author" "bob" exTwo).1 = Ret ("2", None).
Proof. repeat split; vm_compute; reflexivity. Qed.

(** ** The error of the tag rebuild *)

(** Whatever [initTagsIndex] returns, [initTblIndexes] returns nil once
    [initNonTagsIndexes] has. *)
Lemma initTblIndexes_drops_tag_result tblName fldNames s s1 :
  fieldsToIndex s !! tblName = Some fldNames →
  stringInSlice "tags" fldNames = true →
  initNonTagsIndexes tblName s = (Ret None, s1) →
  ∀ r s2, initTagsIndex tblName s1 = (Ret r, s2) →
  initTblIndexes tblName s = (Ret None, s2).
Proof.
  intros Hc Ht Hn r s2 Hr. unfold initTblIndexes.
  rewrite run_bind. unfold get at 1. rewrite Hc.
  rewrite run_bind, Hn, Ht, run_bind, Hr. done.
Qed.

(** C6: [Create] returns the new id with a nil error although the tag
    rebuild it triggered has failed: the read of the record fails during
    [initTagsIndex], which returns the I/O error, and the tag index is left
    empty. *)
Theorem Create_success_on_failed_tag_rebuild :
  let rec := post "alice" ["go"] in
  let written :=
    (WriteFile "posts" "1" (Marshal rec).1 (logEvent (EvLock "posts") exTagsOnly)).2 in
  let fieldsDone := (initNonTagsIndexes "posts" written).2 in
  (initNonTagsIndexes "posts" written).1 = Ret None ∧
  (initTagsIndex "posts" fieldsDone).1 = Ret (Some ErrIO) ∧
  (initTblIndexes "posts" written).1 = Ret None ∧
  (Create "posts" rec exTagsOnly).1 = Ret ("1", None) ∧
  (FindAllIdsForTags "posts" ["go"] (Create "posts" rec exTagsOnly).2).1
    = Ret ([], None).
Proof. repeat split; vm_compute; reflexivity. Qed.

(** ** strconv: [Itoa] followed by [Atoi] *)










(** ** nextAvailableFileId *)









Lemma wrapInt_overflow : wrapInt (maxInt + 1) = minInt.
Proof. reflexivity. Qed.


(** C4: with a record whose id is the largest [int], the next id is not the
    maximum plus one but the smallest [int], and two consecutive [Create]
    calls return that same id twice. *)
Theorem nextAvailableFileId_wraps :
  let rec := post "amy" [] in
  (Update "posts" (post "zed" []) "9223372036854775807" exOpen).1 = Ret None ∧
  parsedIds "posts" exMax = [maxInt] ∧
  nextAvailableFileId "posts" exMax = ("-9223372036854775808", None) ∧
  (Create "posts" rec exMax).1 = Ret ("-9223372036854775808", None) ∧
  (Create "posts" rec (Create "posts" rec exMax).2).1
    = Ret ("-9223372036854775808", None).
Proof. repeat split; vm_compute; reflexivity. Qed.

(** ** What a computation leaves alone *)

Section preserves.
Context (R : relation state) `{!PreOrder R}.

Lemma preserves_ret {A} (a : A) : preserves R (mret a).
Proof. intros s. simpl. reflexivity. Qed.

Lemma preserves_panic {A} p : preserves R (panic (A := A) p).
Proof. intros s. simpl. reflexivity. Qed.

Lemma preserves_get : preserves R get.
Proof. intros s. simpl. reflexivity. Qed.

Lemma preserves_modify f : (∀ s, R s (f s)) → preserves R (modify f).
Proof. intros H s. apply H. Qed.

Lemma preserves_bind {A B} (m : M A) (f : A → M B) :
  preserves R m → (∀ a, preserves R (f a)) → preserves R (m ≫= f).
Proof.
  intros Hm Hf s. rewrite run_bind. specialize (Hm s).
  destruct (m s) as [[a|p] s']; simpl in *; [|done].
  etrans; [exact Hm|apply Hf].
Qed.

Lemma preserves_defer {A} d (m : M A) :
  (∀ s, R s (d s)) → preserves R m → preserves R (defer d m).
Proof.
  intros Hd Hm s. rewrite run_defer. simpl. etrans; [apply Hm|apply Hd].
Qed.
End preserves.

Global Instance otherTablesSame_preorder tblName : PreOrder (otherTablesSame tblName).
Proof.
  split.
  - by intros s other Hne.
  - intros s1 s2 s3 H12 H23 other Hne.
    destruct (H12 other Hne) as [E1 E2]. destruct (H23 other Hne) as [E3 E4].
    split; congruence.
Qed.

Global Instance sameStore_preorder : PreOrder sameStore.
Proof.
  split.
  - by intros s.
  - intros s1 s2 s3 ([E0 E1] & E2 & E3 & E4 & H1) ([F0 F1] & F2 & F3 & F4 & H2).
    unfold sameStore. repeat split; [congruence..|auto].
Qed.

Global Instance sameTagIndexes_preorder : PreOrder sameTagIndexes.
Proof.
  split.
  - by intros s.
  - intros s1 s2 s3 H1 H2. unfold sameTagIndexes in *. congruence.
Qed.

(** One structural step of a preservation proof, and the search that
    repeats it and closes the leaves with the lemmas of [pres]. *)
Ltac pres_step :=
  lazymatch goal with
  | |- preserves _ (mret _) => apply preserves_ret; apply _
  | |- preserves _ (panic _) => apply preserves_panic; apply _
  | |- preserves _ get => apply preserves_get; apply _
  | |- preserves _ (_ ≫= _) => apply preserves_bind; [apply _| |intros ?]
  | |- preserves _ (defer _ _) => apply preserves_defer; [apply _|intros ?|]
  | |- preserves _ (modify _) => apply preserves_modify; intros ?
  | |- preserves _ (match ?x with _ => _ end) => destruct x
  | |- preserves _ (if ?x then _ else _) => destruct x
  end.

Create HintDb pres.

Ltac pres_go := repeat first [pres_step | solve [eauto with pres]].

(** *** The index builders

    The builders touch the state through four kinds of step only: a
    substrate read, and a store into, or an in-place clearing of, the
    table's entry of either index.  A relation kept by these is kept by the
    builders. *)

Section builders.
Context (tblName : string) (R : relation state) `{!PreOrder R}.
Context (R_ioFault : preserves R ioFault).
Context (R_fld_insert : ∀ t s,
  R s (set_fldIndexes (<[tblName := t]> (fldIndexes s)) s)).
Context (R_fld_alter : ∀ g s,
  R s (set_fldIndexes (alter g tblName (fldIndexes s)) s)).
Context (R_tag_insert : ∀ t s,
  R s (set_tagIndexes (<[tblName := t]> (tagIndexes s)) s)).
Context (R_tag_alter : ∀ g s,
  R s (set_tagIndexes (alter g tblName (tagIndexes s)) s)).

Lemma keeps_ReadFile t fileId : preserves R (ReadFile t fileId).
Proof. unfold ReadFile. pres_go. Qed.

Lemma keeps_assertString x : preserves R (assertString x).
Proof. unfold assertString. pres_go. Qed.

Lemma keeps_assertSlice x : preserves R (assertSlice x).
Proof. unfold assertSlice. pres_go. Qed.

Lemma keeps_setFldBucket fldName fldValue ids :
  preserves R (setFldBucket tblName fldName fldValue ids).
Proof.
  intros s. unfold setFldBucket.
  destruct (fldIndexes s !! tblName) as [t|]; [|done].
  destruct (t !! fldName) as [f|]; [|done]. apply R_fld_insert.
Qed.

Local Hint Resolve keeps_ReadFile keeps_assertString keeps_assertSlice
  keeps_setFldBucket : pres.

Lemma keeps_indexRecord fldNames rec fileId :
  preserves R (indexRecord tblName fldNames rec fileId).
Proof.
  induction fldNames as [|fldName rest IH]; cbn [indexRecord]; pres_go.
Qed.

Local Hint Resolve keeps_indexRecord : pres.

Lemma keeps_nonTagsLoop fldNames fileIds : ∀ rec,
  preserves R (nonTagsLoop tblName fldNames fileIds rec).
Proof.
  induction fileIds as [|fileId rest IH]; intros rec; cbn [nonTagsLoop];
    pres_go.
Qed.

Local Hint Resolve keeps_nonTagsLoop : pres.

Lemma keeps_initNonTagsIndexes : preserves R (initNonTagsIndexes tblName).
Proof. unfold initNonTagsIndexes. pres_go. Qed.

Lemma keeps_indexTags tags fileId : ∀ tagIndex,
  preserves R (indexTags tags fileId tagIndex).
Proof.
  induction tags as [|t rest IH]; intros tagIndex; cbn [indexTags]; pres_go.
Qed.

Local Hint Resolve keeps_indexTags : pres.

Lemma keeps_tagsLoop fileIds : ∀ rec tagIndex,
  preserves R (tagsLoop tblName fileIds rec tagIndex).
Proof.
  induction fileIds as [|fileId rest IH]; intros rec tagIndex;
    cbn [tagsLoop]; pres_go.
Qed.

Local Hint Resolve keeps_tagsLoop : pres.

Lemma keeps_initTagsIndex : preserves R (initTagsIndex tblName).
Proof. unfold initTagsIndex. pres_go. Qed.

Lemma keeps_Legacy_initTagsIndex : preserves R (Legacy.initTagsIndex tblName).
Proof. unfold Legacy.initTagsIndex. pres_go. Qed.

Local Hint Resolve keeps_initNonTagsIndexes keeps_initTagsIndex : pres.

Lemma keeps_initTblIndexes : preserves R (initTblIndexes tblName).
Proof. unfold initTblIndexes. pres_go. Qed.
End builders.

(** *** Every table other than the one named *)

Section frame.
Context (tblName : string).
Local Abbreviation R := (otherTablesSame tblName).

Lemma frame_logEvent e s : R s (logEvent e s).
Proof. by intros other Hne. Qed.

Lemma frame_set_files f s : R s (set_files f s).
Proof. by intros other Hne. Qed.

Lemma frame_ioFault : preserves R ioFault.
Proof. intros s. unfold ioFault. by destruct (faults s). Qed.

Lemma frame_fld_insert t s :
  R s (set_fldIndexes (<[tblName := t]> (fldIndexes s)) s).
Proof. intros other Hne. simpl. by rewrite lookup_insert_ne. Qed.

Lemma frame_fld_alter g s :
  R s (set_fldIndexes (alter g tblName (fldIndexes s)) s).
Proof. intros other Hne. simpl. by rewrite lookup_alter_ne. Qed.

Lemma frame_tag_insert t s :
  R s (set_tagIndexes (<[tblName := t]> (tagIndexes s)) s).
Proof. intros other Hne. simpl. by rewrite lookup_insert_ne. Qed.

Lemma frame_tag_alter g s :
  R s (set_tagIndexes (alter g tblName (tagIndexes s)) s).
Proof. intros other Hne. simpl. by rewrite lookup_alter_ne. Qed.

Lemma frame_acquire e t : preserves R (acquire e t).
Proof.
  intros s. unfold acquire. case_decide; simpl; [apply frame_logEvent|done].
Qed.

Local Hint Resolve frame_ioFault frame_set_files frame_logEvent : pres.

Lemma frame_WriteFile t fileId data : preserves R (WriteFile t fileId data).
Proof. unfold WriteFile. pres_go. Qed.

Lemma frame_Remove t fileId : preserves R (Remove t fileId).
Proof. unfold Remove. pres_go. Qed.

Lemma frame_initTblIndexes : preserves R (initTblIndexes tblName).
Proof.
  apply keeps_initTblIndexes; first apply _;
    auto using frame_ioFault, frame_fld_insert, frame_fld_alter,
               frame_tag_insert, frame_tag_alter.
Qed.

Lemma frame_Legacy_initTagsIndex : preserves R (Legacy.initTagsIndex tblName).
Proof.
  apply keeps_Legacy_initTagsIndex; first apply _;
    auto using frame_ioFault, frame_tag_insert, frame_tag_alter.
Qed.
End frame.

(** *** Files, configuration and locks *)

Lemma sameStore_ioFault : preserves sameStore ioFault.
Proof.
  intros s. unfold ioFault. destruct (faults s) eqn:E; simpl; [done|].
  repeat split. simpl. by rewrite E.
Qed.

Lemma sameStore_set_fldIndexes f s : sameStore s (set_fldIndexes f s).
Proof. done. Qed.

Lemma sameStore_set_tagIndexes t s : sameStore s (set_tagIndexes t s).
Proof. done. Qed.

Lemma sameStore_initNonTagsIndexes tblName :
  preserves sameStore (initNonTagsIndexes tblName).
Proof.
  apply keeps_initNonTagsIndexes; first apply _;
    auto using sameStore_ioFault, sameStore_set_fldIndexes.
Qed.

Lemma sameStore_initTagsIndex tblName :
  preserves sameStore (initTagsIndex tblName).
Proof.
  apply keeps_initTagsIndex; first apply _;
    auto using sameStore_ioFault, sameStore_set_tagIndexes.
Qed.

Lemma sameStore_initTblIndexes tblName :
  preserves sameStore (initTblIndexes tblName).
Proof.
  apply keeps_initTblIndexes; first apply _;
    auto using sameStore_ioFault, sameStore_set_fldIndexes,
               sameStore_set_tagIndexes.
Qed.

Lemma sameTagIndexes_initNonTagsIndexes tblName :
  preserves sameTagIndexes (initNonTagsIndexes tblName).
Proof.
  apply keeps_initNonTagsIndexes; first apply _; try done.
  intros s. unfold ioFault. by destruct (faults s).
Qed.

Section frame_writers.
Context (tblName : string).
Local Abbreviation R := (otherTablesSame tblName).

Local Hint Resolve frame_acquire frame_logEvent frame_WriteFile frame_Remove
  frame_initTblIndexes frame_Legacy_initTagsIndex : pres.

Lemma frame_Create rec : preserves R (Create tblName rec).
Proof. unfold Create, Lock, Unlock. pres_go. Qed.

Lemma frame_Update rec fileId : preserves R (Update tblName rec fileId).
Proof. unfold Update, Lock, Unlock. pres_go. Qed.

Lemma frame_Delete fileId : preserves R (Delete tblName fileId).
Proof. unfold Delete, Lock, Unlock. pres_go. Qed.

Lemma frame_Legacy_Create rec : preserves R (Legacy.Create tblName rec).
Proof. unfold Legacy.Create, Lock, Unlock. pres_go. Qed.

Lemma frame_Legacy_Update rec fileId :
  preserves R (Legacy.Update tblName rec fileId).
Proof. unfold Legacy.Update, Lock, Unlock. pres_go. Qed.

Lemma frame_Legacy_Delete fileId : preserves R (Legacy.Delete tblName fileId).
Proof. unfold Legacy.Delete, Lock, Unlock. pres_go. Qed.

Local Hint Resolve frame_Create frame_Update frame_Delete frame_Legacy_Create
  frame_Legacy_Update frame_Legacy_Delete : pres.

Lemma frame_runMutation m : preserves R (runMutation tblName m).
Proof. destruct m; cbn [runMutation]; pres_go. Qed.

Lemma frame_runLegacyMutation m : preserves R (runLegacyMutation tblName m).
Proof. destruct m; cbn [runLegacyMutation]; pres_go. Qed.
End frame_writers.

(** C9: a [Create], [Update] or [Delete] on a table leaves the field-index
    and tag-index entries of every other table as they were, whether it
    returns nil, returns an error or panics; the same holds for the writers
    of the earlier variant. *)
Theorem mutation_leaves_other_tables tblName other m s :
  other ≠ tblName →
  (fldIndexes (runMutation tblName m s).2 !! other = fldIndexes s !! other ∧
   tagIndexes (runMutation tblName m s).2 !! other = tagIndexes s !! other) ∧
  (fldIndexes (runLegacyMutation tblName m s).2 !! other = fldIndexes s !! other ∧
   tagIndexes (runLegacyMutation tblName m s).2 !! other = tagIndexes s !! other).
Proof.
  intros Hne. split.
  - apply (frame_runMutation tblName m s other Hne).
  - apply (frame_runLegacyMutation tblName m s other Hne).
Qed.

Lemma mutation_leaves_other_tables_witness :
  "users" ≠ "posts" ∧
  fldIndexes (runMutation "posts" (MDelete "1") exBoth).2 !! "users"
    = fldIndexes exBoth !! "users".
Proof.
  assert ("users" ≠ "posts") as Hne by done. split; [done|].
  apply (mutation_leaves_other_tables "posts" "users" (MDelete "1") exBoth Hne).
Defined.

(** ** File names and file ids *)

Lemma append_cons x (a b : string) : String x a +:+ b = String x (a +:+ b).
Proof. reflexivity. Qed.

Lemma append_assoc_s (a b c : string) : (a +:+ b) +:+ c = a +:+ (b +:+ c).
Proof.
  induction a as [|x a IH]; [done|]. by rewrite !append_cons, IH.
Qed.

Lemma append_empty_r (a : string) : a +:+ "" = a.
Proof. induction a as [|x a IH]; [done|]. by rewrite append_cons, IH. Qed.

Lemma rev_app_append (a b acc : string) :
  String.rev_app (a +:+ b) acc = String.rev_app b (String.rev_app a acc).
Proof.
  revert acc. induction a as [|x a IH]; intros acc; [done|].
  rewrite append_cons. cbn [String.rev_app]. apply IH.
Qed.

Lemma rev_app_rev_app (a b c : string) :
  String.rev_app (String.rev_app a b) c = String.rev_app b (a +:+ c).
Proof.
  revert b c. induction a as [|x a IH]; intros b c; [done|].
  cbn [String.rev_app]. rewrite IH. by rewrite append_cons.
Qed.

Lemma rev_involutive_s (a : string) : String.rev (String.rev a) = a.
Proof.
  unfold String.rev. rewrite rev_app_rev_app. cbn [String.rev_app].
  apply append_empty_r.
Qed.

Lemma rev_app_acc (a b : string) :
  String.rev_app a b = String.rev_app a "" +:+ b.
Proof.
  revert b. induction a as [|x a IH]; intros b; [done|].
  cbn [String.rev_app].
  rewrite (IH (String x b)), (IH (String x "")), append_assoc_s. done.
Qed.

Lemma Ext_fileName fileId : Ext (fileName fileId) = ".json".
Proof.
  unfold Ext, String.rev, fileName. rewrite rev_app_append. reflexivity.
Qed.

Lemma substring_prefix (a b : string) :
  String.substring 0 (String.length a) (a +:+ b) = a.
Proof.
  induction a as [|x a IH]; [by destruct b|].
  rewrite append_cons. cbn [String.length String.substring]. by rewrite IH.
Qed.

Lemma length_append_s (a b : string) :
  String.length (a +:+ b) = (String.length a + String.length b)%nat.
Proof.
  induction a as [|x a IH]; [done|].
  rewrite append_cons. cbn [String.length]. by rewrite IH.
Qed.

Lemma stem_fileName fileId : stem (fileName fileId) = fileId.
Proof.
  unfold stem, fileName. rewrite length_append_s.
  change (String.length ".json") with 5%nat.
  replace (String.length fileId + 5 - 5)%nat with (String.length fileId) by lia.
  apply substring_prefix.
Qed.

Lemma Ext_scan_inv r : ∀ acc c x,
  Ext_scan r acc = String c x →
  ∃ pre r', r = pre +:+ String "." r' ∧ c = "."%char ∧ x = String.rev_app pre acc.
Proof.
  induction r as [|y r IH]; intros acc c x H; simpl in H; [done|].
  destruct (Ascii.eqb_spec y "/"); [done|].
  destruct (Ascii.eqb_spec y ".") as [->|].
  - simplify_eq. by exists "", r.
  - destruct (IH _ _ _ H) as (pre & r' & -> & -> & ->).
    by exists (String y pre), r'.
Qed.

Lemma Ext_json_fileName name : Ext name = ".json" → name = fileName (stem name).
Proof.
  intros H. unfold Ext in H.
  destruct (Ext_scan_inv _ _ _ _ H) as (pre & r' & Hr & _ & Hx).
  assert (name = fileName (String.rev r')) as ->.
  { rewrite <- (rev_involutive_s name), Hr. unfold String.rev at 1.
    rewrite rev_app_append. simpl. rewrite <- Hx. apply rev_app_acc. }
  by rewrite stem_fileName.
Qed.

Lemma fileName_inj a b : fileName a = fileName b → a = b.
Proof. intros H. by rewrite <- (stem_fileName a), H, stem_fileName. Qed.

Lemma elem_of_fileIdsInDataDir tblName s fileId :
  fileId ∈ fileIdsInDataDir tblName s ↔
  (tblName ∉ unlistable s) ∧
  ∃ data, lookupFile (files s) tblName fileId = Some (RegularFile data).
Proof.
  unfold fileIdsInDataDir, ReadDir, lookupFile.
  destruct (files s !! tblName) as [d|]; cbn [mbind option_bind].
  - destruct (decide (tblName ∈ unlistable s)) as [Hu|Hu].
    { split; [by intros ?%elem_of_nil|]. by intros [? _]. }
    rewrite list_elem_of_omap. split.
    + intros ([name e] & Hin & Hf). cbn [fst snd] in Hf.
      rewrite merge_sort_Permutation in Hin.
      apply elem_of_map_to_list in Hin.
      destruct e as [data|]; [|done].
      destruct (decide (Ext name = ".json")) as [HE|]; [|done].
      simplify_eq. split; [done|]. exists data.
      by rewrite <- (Ext_json_fileName name HE).
    + intros [_ [data Hd]]. exists (fileName fileId, RegularFile data). split.
      * rewrite merge_sort_Permutation. by apply elem_of_map_to_list.
      * cbn [fst snd]. rewrite decide_True by apply Ext_fileName.
        by rewrite stem_fileName.
  - split; [by intros ?%elem_of_nil|]. by intros [_ [? ?]].
Qed.

Lemma fileIdsInDataDir_same tblName s s' :
  files s' = files s ∧ unlistable s' = unlistable s →
  fileIdsInDataDir tblName s' = fileIdsInDataDir tblName s.
Proof. intros [Hf Hu]. unfold fileIdsInDataDir, ReadDir. by rewrite Hf, Hu. Qed.

Lemma stringInSlice_true s l : stringInSlice s l = true ↔ s ∈ l.
Proof.
  induction l as [|x l IH]; simpl.
  - split; [done|by intros ?%elem_of_nil].
  - case_decide as E.
    + subst. split; [left|done].
    + rewrite IH. split; [by right|].
      intros [?|?]%elem_of_cons; [congruence|done].
Qed.

Lemma stringInSlice_false s l : stringInSlice s l = false ↔ s ∉ l.
Proof.
  rewrite <- stringInSlice_true. destruct (stringInSlice s l); naive_solver.
Qed.

(** ** The field index after a rebuild *)

Lemma run_modify_bind {B} f (k : unit → M B) s : (modify f ≫= k) s = k tt (f s).
Proof. reflexivity. Qed.

Lemma run_get_bind {B} (k : state → M B) s : (get ≫= k) s = k s s.
Proof. reflexivity. Qed.

Ltac run_steps H :=
  repeat first [rewrite run_modify_bind in H | rewrite run_get_bind in H].

Lemma fldBucket_setFldBucket tblName fldName fldValue ids s s1 :
  setFldBucket tblName fldName fldValue ids s = (Ret tt, s1) →
  ∀ f v, fldBucket tblName f v s1 =
         if decide (f = fldName ∧ v = fldValue) then Some ids
         else fldBucket tblName f v s.
Proof.
  unfold setFldBucket, fldBucket. intros H f v.
  destruct (fldIndexes s !! tblName) as [t|] eqn:Et; [|done].
  destruct (t !! fldName) as [fm|] eqn:Ef; [|done].
  simplify_eq. simpl. rewrite lookup_insert_eq. simpl.
  destruct (decide (f = fldName)) as [->|Hf].
  - rewrite lookup_insert_eq. simpl.
    destruct (decide (v = fldValue)) as [->|Hv].
    + rewrite lookup_insert_eq. by rewrite decide_True.
    + rewrite lookup_insert_ne by done. rewrite Ef. simpl.
      rewrite decide_False; [done|]. by intros [_ ?].
  - rewrite lookup_insert_ne by done. rewrite decide_False; [done|].
    by intros [? _].
Qed.

Lemma inFldBucket_setFldBucket tblName fldName fldValue fileId ids s s1 :
  setFldBucket tblName fldName fldValue ids s = (Ret tt, s1) →
  (∀ x, x ∈ ids ↔ x = fileId ∨
          ∃ old, fldBucket tblName fldName fldValue s = Some old ∧ x ∈ old) →
  ∀ f v x, inFldBucket s1 tblName f v x ↔
           inFldBucket s tblName f v x ∨ (f = fldName ∧ v = fldValue ∧ x = fileId).
Proof.
  intros H Hids f v x. unfold inFldBucket.
  rewrite (fldBucket_setFldBucket _ _ _ _ _ _ H). case_decide as Hd.
  - destruct Hd as [-> ->]. split.
    + intros (? & [= <-] & Hx). apply Hids in Hx as [->|(old & ? & ?)].
      * by right.
      * left. by exists old.
    + intros [(old & Ho & Hx)|(_ & _ & ->)]; eexists; (split; [done|]);
        apply Hids; [right; by exists old|by left].
  - split; [by left|]. intros [?|(? & ? & ?)]; [done|]. destruct Hd. done.
Qed.

(** One record: every configured field other than [tags] holds a string,
    and the record's id joins the bucket of each such value. *)
Lemma indexRecord_spec tblName rec fileId fldNames : ∀ s s',
  indexRecord tblName fldNames rec fileId s = (Ret tt, s') →
  (∀ f, f ∈ fldNames → f ≠ "tags" → ∃ v, rec !! f = Some (JStr v)) ∧
  (∀ f v x, inFldBucket s' tblName f v x ↔
            inFldBucket s tblName f v x ∨
            (f ∈ fldNames ∧ f ≠ "tags" ∧ x = fileId ∧ rec !! f = Some (JStr v))).
Proof.
  induction fldNames as [|fldName rest IH]; intros s s' H; cbn [indexRecord] in H.
  - rewrite run_ret in H. simplify_eq. split.
    + intros f Hin. by apply elem_of_nil in Hin.
    + intros f v x. split; [by left|]. intros [?|(Hin & _)]; [done|].
      by apply elem_of_nil in Hin.
  - destruct (decide (fldName = "tags")) as [Htags|Htags].
    { destruct (IH _ _ H) as [IH1 IH2]. split.
      - intros f Hin Hne. apply elem_of_cons in Hin as [->|Hin]; [done|].
        by apply IH1.
      - intros f v x. rewrite IH2. split.
        + intros [?|(Hin & ? & ? & ?)]; [by left|right].
          split; [by right|done].
        + intros [?|(Hin & Hne & ? & ?)]; [by left|right].
          apply elem_of_cons in Hin as [->|Hin]; [done|done]. }
    rewrite run_bind in H. unfold assertString in H.
    destruct (rec !! fldName) as [[| | |fldValue| |]|] eqn:Erec; try done.
    rewrite run_ret, run_bind in H. unfold get at 1 in H.
    rewrite run_bind in H.
    assert (∃ s1, (∀ f v x, inFldBucket s1 tblName f v x ↔
                     inFldBucket s tblName f v x ∨
                     (f = fldName ∧ v = fldValue ∧ x = fileId)) ∧
                  indexRecord tblName rest rec fileId s1 = (Ret tt, s'))
      as (s1 & Hs1 & Hrest).
    { destruct (fldBucket tblName fldName fldValue s) as [fileIds|] eqn:Eb.
      - destruct (stringInSlice fileId fileIds) eqn:Ein.
        + rewrite run_ret in H. exists s. split; [|done].
          intros f v x. split; [by left|].
          intros [?|(-> & -> & ->)]; [done|].
          exists fileIds. split; [done|]. by apply stringInSlice_true.
        + destruct (setFldBucket tblName fldName fldValue (fileIds ++ [fileId]) s)
            as [[[]|p] s1] eqn:Eset; [|done].
          exists s1. split; [|done].
          apply (inFldBucket_setFldBucket _ _ _ fileId _ _ _ Eset).
          intros x. rewrite elem_of_app, list_elem_of_singleton. split.
          * intros [?|?]; [right; by exists fileIds|by left].
          * intros [?|(old & Ho & ?)]; [by right|left]. by simplify_eq.
      - destruct (setFldBucket tblName fldName fldValue [fileId] s)
          as [[[]|p] s1] eqn:Eset; [|done].
        exists s1. split; [|done].
        apply (inFldBucket_setFldBucket _ _ _ fileId _ _ _ Eset).
        intros x. rewrite list_elem_of_singleton. split; [by left|].
        intros [?|(old & Ho & _)]; [done|congruence]. }
    destruct (IH _ _ Hrest) as [IH1 IH2]. split.
    + intros f Hin Hne. apply elem_of_cons in Hin as [->|Hin]; [eauto|].
      by apply IH1.
    + intros f v x. rewrite IH2, Hs1. split.
      * intros [[?|(-> & -> & ->)]|(Hin & ? & ? & ?)]; [by left|right..].
        -- split; [left|done].
        -- split; [by right|done].
      * intros [?|(Hin & ? & -> & Hv)]; [by left; left|].
        apply elem_of_cons in Hin as [->|Hin].
        -- left; right. rewrite Erec in Hv. by simplify_eq.
        -- right. done.
Qed.

Lemma ReadFile_quiet tblName fileId s :
  faults s = [] →
  ReadFile tblName fileId s =
    (Ret match lookupFile (files s) tblName fileId with
         | Some (RegularFile data) => (data, None)
         | Some (Directory _) => (Malformed, Some ErrIsDir)
         | None => (Malformed, Some ErrNotExist)
         end, s).
Proof.
  intros Hf. unfold ReadFile. rewrite run_bind. unfold ioFault. rewrite Hf.
  rewrite run_bind. unfold get.
  by destruct (lookupFile (files s) tblName fileId) as [[data|b]|].
Qed.

Lemma sameStore_indexRecord tblName fldNames rec fileId :
  preserves sameStore (indexRecord tblName fldNames rec fileId).
Proof.
  apply keeps_indexRecord; first apply _; auto using sameStore_set_fldIndexes.
Qed.

(** The whole loop: it returns nil only if every file decodes, and then the
    buckets have gained exactly the ids of the records as the loop saw
    them. *)
Lemma nonTagsLoop_spec tblName fldNames fileIds : ∀ rec s s',
  faults s = [] →
  nonTagsLoop tblName fldNames fileIds rec s = (Ret None, s') →
  ∃ seen,
    decodeAll (lookupFile (files s) tblName) fileIds rec = Some seen ∧
    (∀ x r, (x, r) ∈ seen →
       ∀ f, f ∈ fldNames → f ≠ "tags" → ∃ v, r !! f = Some (JStr v)) ∧
    (∀ f v x, inFldBucket s' tblName f v x ↔
              inFldBucket s tblName f v x ∨
              (f ∈ fldNames ∧ f ≠ "tags" ∧
               ∃ r, (x, r) ∈ seen ∧ r !! f = Some (JStr v))).
Proof.
  induction fileIds as [|fileId rest IH]; intros rec s s' Hq H;
    cbn [nonTagsLoop] in H.
  - rewrite run_ret in H. simplify_eq. exists []. split; [done|]. split.
    + intros x r Hin. by apply elem_of_nil in Hin.
    + intros f v x. split; [by left|].
      intros [?|(_ & _ & r & Hin & _)]; [done|]. by apply elem_of_nil in Hin.
  - rewrite run_bind, ReadFile_quiet in H by done. cbn [decodeAll].
    destruct (lookupFile (files s) tblName fileId) as [[data|b]|]; try done.
    destruct (Unmarshal data rec) as [rec' [e|]] eqn:EU; [done|].
    rewrite run_bind in H.
    pose proof (sameStore_indexRecord tblName fldNames rec' fileId s) as HS.
    destruct (indexRecord tblName fldNames rec' fileId s) as [[[]|p] s1] eqn:EI;
      [|done].
    destruct HS as ([Hfiles _] & _ & _ & _ & Hq1). cbn [snd] in Hfiles, Hq1.
    destruct (indexRecord_spec _ _ _ _ _ _ EI) as [Hstr Hb1].
    destruct (IH rec' s1 s' (Hq1 Hq) H) as (seen & Hdec & Hseen & Hb).
    rewrite Hfiles in Hdec. rewrite Hdec. cbn [fmap option_fmap option_map].
    exists ((fileId, rec') :: seen). split; [done|]. split.
    + intros x r Hin. apply elem_of_cons in Hin as [[= -> ->]|Hin];
        [apply Hstr|by eapply Hseen].
    + intros f v x. rewrite Hb, Hb1. split.
      * intros [[?|(? & ? & -> & ?)]|(? & ? & r & ? & ?)]; [by left|right..].
        -- split; [done|]. split; [done|]. exists rec'. split; [left|done].
        -- split; [done|]. split; [done|]. exists r. split; [by right|done].
      * intros [?|(? & ? & r & Hin & ?)]; [by left; left|].
        apply elem_of_cons in Hin as [[= -> ->]|Hin].
        -- left; right. done.
        -- right. split; [done|]. split; [done|]. by exists r.
Qed.

Lemma empty_field_maps fldNames : ∀ (t : gmap string (gmap string (list string))),
  (∀ f fm, t !! f = Some fm → fm = ∅) →
  ∀ f fm,
    foldl (λ t fldName, if decide (fldName = "tags") then t
                        else <[fldName := ∅]> t) t fldNames !! f = Some fm →
    fm = ∅.
Proof.
  induction fldNames as [|fldName rest IH]; intros t Ht f fm; simpl; [apply Ht|].
  apply IH. case_decide; [done|]. intros f' fm'.
  rewrite lookup_insert. case_decide; [naive_solver|apply Ht].
Qed.

Lemma initNonTagsIndexes_spec tblName s s' :
  faults s = [] →
  initNonTagsIndexes tblName s = (Ret None, s') →
  ∃ seen,
    decodeAll (lookupFile (files s) tblName) (fileIdsInDataDir tblName s) ∅
      = Some seen ∧
    (∀ x r, (x, r) ∈ seen →
       ∀ f, f ∈ default [] (fieldsToIndex s !! tblName) → f ≠ "tags" →
       ∃ v, r !! f = Some (JStr v)) ∧
    (∀ f v x, inFldBucket s' tblName f v x ↔
              f ∈ default [] (fieldsToIndex s !! tblName) ∧ f ≠ "tags" ∧
              ∃ r, (x, r) ∈ seen ∧ r !! f = Some (JStr v)).
Proof.
  intros Hq H. unfold initNonTagsIndexes in H. run_steps H.
  cbn [fieldsToIndex set_fldIndexes fldIndexes] in H.
  match type of H with nonTagsLoop _ _ _ _ ?s0 = _ => set (s0' := s0) in H end.
  destruct (nonTagsLoop_spec _ _ _ _ s0' s' Hq H) as (seen & Hdec & Hseen & Hb).
  exists seen. split; [exact Hdec|]. split; [exact Hseen|].
  intros f v x. rewrite Hb. split; [|auto].
  intros [(ids & Hids & _)|?]; [exfalso|done].
  unfold fldBucket, s0' in Hids. simpl in Hids.
  rewrite lookup_insert_eq in Hids. simpl in Hids.
  destruct (foldl _ _ _ !! f) as [fm|] eqn:Ef; [|done].
  apply empty_field_maps in Ef as ->; [|by intros ? ? ?%lookup_empty_Some].
  simpl in Hids. by rewrite lookup_empty in Hids.
Qed.

(** ** The scan *)

Lemma scanLoop_spec tblName searchField searchValue fileIds :
  ∀ rec ids seen s,
  faults s = [] →
  decodeAll (lookupFile (files s) tblName) fileIds rec = Some seen →
  (∀ x r, (x, r) ∈ seen → ∃ v, r !! searchField = Some (JStr v)) →
  scanLoop tblName searchField searchValue fileIds rec ids s =
    (Ret (ids ++ matchingIds searchField searchValue seen, None), s).
Proof.
  induction fileIds as [|fileId rest IH]; intros rec ids seen s Hq Hdec Hstr;
    cbn [scanLoop decodeAll] in *.
  - simplify_eq. rewrite run_ret. unfold matchingIds. cbn [omap list_omap].
    by rewrite app_nil_r.
  - rewrite run_bind, ReadFile_quiet by done.
    destruct (lookupFile (files s) tblName fileId) as [[data|b]|]; try done.
    destruct (Unmarshal data rec) as [rec' [e|]] eqn:EU; [done|].
    destruct (decodeAll _ rest rec') as [seen'|] eqn:Ed; [|done].
    cbn [fmap option_fmap option_map] in Hdec. simplify_eq.
    destruct (Hstr fileId rec') as [v Hv]; [left|].
    rewrite run_bind, Hv. unfold assertString. rewrite run_ret.
    rewrite (IH rec' _ seen' s Hq Ed).
    + unfold matchingIds. cbn [omap list_omap fst snd]. rewrite Hv.
      case_decide; [by rewrite <- app_assoc|done].
    + intros x r Hin. apply (Hstr x r). by right.
Qed.

Lemma elem_of_matchingIds fldName fldValue seen x :
  x ∈ matchingIds fldName fldValue seen ↔
  ∃ r, (x, r) ∈ seen ∧ r !! fldName = Some (JStr fldValue).
Proof.
  unfold matchingIds. rewrite list_elem_of_omap. split.
  - intros ([y r] & Hin & Hm). simpl in Hm. exists r.
    destruct (r !! fldName) as [[| | |v| |]|]; try done.
    case_decide; simplify_eq. done.
  - intros (r & Hin & Hr). exists (x, r). split; [done|]. simpl.
    rewrite Hr. by rewrite decide_True.
Qed.

(** ** The tag index after a rebuild *)

Lemma addTag_spec (tagIndex : gmap string (list string)) tag0 fileId :
  ∃ mid,
    (match tagIndex !! tag0 with
     | Some fileIds =>
         if stringInSlice fileId fileIds then tagIndex
         else <[tag0 := fileIds ++ [fileId]]> tagIndex
     | None => <[tag0 := [fileId]]> tagIndex
     end = mid) ∧
    (∀ tag x, (∃ ids, mid !! tag = Some ids ∧ x ∈ ids) ↔
              (∃ ids, tagIndex !! tag = Some ids ∧ x ∈ ids) ∨
              (x = fileId ∧ tag = tag0)) ∧
    ((∀ tag ids, tagIndex !! tag = Some ids → NoDup ids) →
     ∀ tag ids, mid !! tag = Some ids → NoDup ids).
Proof.
  eexists. split; [reflexivity|].
  destruct (tagIndex !! tag0) as [fileIds|] eqn:Et.
  - destruct (stringInSlice fileId fileIds) eqn:Ein.
    + split; [|done]. intros tag x. split; [by left|].
      intros [?|[-> ->]]; [done|].
      exists fileIds. split; [done|]. by apply stringInSlice_true.
    + apply stringInSlice_false in Ein. split.
      * intros tag x. destruct (decide (tag = tag0)) as [->|Hne].
        -- rewrite lookup_insert_eq. split.
           ++ intros (ids & [= <-] & Hx). apply elem_of_app in Hx as [Hx|Hx].
              ** left. by exists fileIds.
              ** apply list_elem_of_singleton in Hx. by right.
           ++ intros [(ids & Hids & Hx)|[-> _]].
              ** rewrite Et in Hids. simplify_eq. eexists. split; [done|].
                 apply elem_of_app. by left.
              ** eexists. split; [done|]. apply elem_of_app. right. left.
        -- rewrite lookup_insert_ne by done. split; [by left|].
           intros [?|[_ ?]]; done.
      * intros Hn tag ids. destruct (decide (tag = tag0)) as [->|Hne].
        -- rewrite lookup_insert_eq. intros [= <-].
           apply NoDup_app. split; [by eapply Hn|]. split.
           ++ intros x Hx Hx'. apply list_elem_of_singleton in Hx'. by subst.
           ++ apply NoDup_singleton.
        -- rewrite lookup_insert_ne by done. apply Hn.
  - split.
    + intros tag x. destruct (decide (tag = tag0)) as [->|Hne].
      * rewrite lookup_insert_eq. split.
        -- intros (ids & [= <-] & Hx). apply list_elem_of_singleton in Hx.
           by right.
        -- intros [(ids & Hids & Hx)|[-> _]]; [congruence|].
           eexists. split; [done|]. left.
      * rewrite lookup_insert_ne by done. split; [by left|].
        intros [?|[_ ?]]; done.
    + intros Hn tag ids. destruct (decide (tag = tag0)) as [->|Hne].
      * rewrite lookup_insert_eq. intros [= <-]. apply NoDup_singleton.
      * rewrite lookup_insert_ne by done. apply Hn.
Qed.

Lemma indexTags_step t rest fileId tagIndex s :
  indexTags (t :: rest) fileId tagIndex s =
  match t with
  | JStr tag =>
      indexTags rest fileId
        match tagIndex !! tag with
        | Some fileIds =>
            if stringInSlice fileId fileIds then tagIndex
            else <[tag := fileIds ++ [fileId]]> tagIndex
        | None => <[tag := [fileId]]> tagIndex
        end s
  | _ => (Panic InterfaceConversion, s)
  end.
Proof.
  cbn [indexTags]. rewrite run_bind. unfold assertString.
  destruct t as [| | |tag| |]; try done. rewrite run_ret.
  destruct (tagIndex !! tag) as [fileIds|]; [|done].
  by destruct (stringInSlice fileId fileIds).
Qed.

Lemma indexTags_spec fileId tags : ∀ tagIndex tagIndex' s s',
  indexTags tags fileId tagIndex s = (Ret tagIndex', s') →
  s' = s ∧
  (∀ tag x, (∃ ids, tagIndex' !! tag = Some ids ∧ x ∈ ids) ↔
            (∃ ids, tagIndex !! tag = Some ids ∧ x ∈ ids) ∨
            (x = fileId ∧ JStr tag ∈ tags)) ∧
  ((∀ tag ids, tagIndex !! tag = Some ids → NoDup ids) →
   ∀ tag ids, tagIndex' !! tag = Some ids → NoDup ids).
Proof.
  induction tags as [|t rest IH]; intros tagIndex tagIndex' s s' H.
  - cbn [indexTags] in H. rewrite run_ret in H. simplify_eq.
    split; [done|]. split; [|done].
    intros tag x. split; [by left|]. intros [?|[_ Hin]]; [done|].
    by apply elem_of_nil in Hin.
  - rewrite indexTags_step in H. destruct t as [| | |tag0| |]; try done.
    destruct (addTag_spec tagIndex tag0 fileId) as (mid & Emid & Hmid & Hnd).
    rewrite Emid in H.
    destruct (IH _ _ _ _ H) as (-> & Hb & Hn). split; [done|]. split.
    + intros tag x. rewrite Hb, Hmid. split.
      * intros [[?|[-> ->]]|[-> ?]]; [by left|right..].
        -- split; [done|left].
        -- split; [done|by right].
      * intros [?|[-> Hin]]; [by left; left|].
        apply elem_of_cons in Hin as [[= ->]|Hin]; [left; by right|by right].
    + intros Hn0. apply Hn, Hnd, Hn0.
Qed.

Lemma tagsLoop_spec tblName fileIds : ∀ rec tagIndex tagIndex' s s',
  faults s = [] →
  tagsLoop tblName fileIds rec tagIndex s = (Ret (tagIndex', None), s') →
  ∃ seen,
    decodeAll (lookupFile (files s) tblName) fileIds rec = Some seen ∧
    (∀ tag x, (∃ ids, tagIndex' !! tag = Some ids ∧ x ∈ ids) ↔
              (∃ ids, tagIndex !! tag = Some ids ∧ x ∈ ids) ∨
              (∃ r l, (x, r) ∈ seen ∧ r !! "tags" = Some (JArr l) ∧ JStr tag ∈ l)) ∧
    ((∀ tag ids, tagIndex !! tag = Some ids → NoDup ids) →
     ∀ tag ids, tagIndex' !! tag = Some ids → NoDup ids).
Proof.
  induction fileIds as [|fileId rest IH]; intros rec tagIndex tagIndex' s s' Hq H;
    cbn [tagsLoop] in H.
  - rewrite run_ret in H. simplify_eq. exists []. split; [done|].
    split; [|done].
    intros tag x. split; [by left|].
    intros [?|(r & l & Hin & _)]; [done|]. by apply elem_of_nil in Hin.
  - rewrite run_bind, ReadFile_quiet in H by done. cbn [decodeAll].
    destruct (lookupFile (files s) tblName fileId) as [[data|b]|]; try done.
    destruct (Unmarshal data rec) as [rec' [e|]] eqn:EU; [done|].
    rewrite run_bind in H. unfold assertSlice in H.
    destruct (rec' !! "tags") as [[| | | |l|]|] eqn:Et; try done.
    rewrite run_ret, run_bind in H.
    destruct (indexTags l fileId tagIndex s) as [[mid|p] s1] eqn:EI; [|done].
    destruct (indexTags_spec _ _ _ _ _ _ EI) as (-> & Hb1 & Hn1).
    destruct (IH _ _ _ _ _ Hq H) as (seen & Hdec & Hb & Hn).
    rewrite Hdec. cbn [fmap option_fmap option_map].
    exists ((fileId, rec') :: seen). split; [done|]. split.
    + intros tag x. rewrite Hb, Hb1. split.
      * intros [[?|[-> ?]]|(r & l' & ? & ? & ?)]; [by left|right..].
        -- exists rec', l. split; [left|done].
        -- exists r, l'. split; [by right|done].
      * intros [?|(r & l' & Hin & Hr & ?)]; [by left; left|].
        apply elem_of_cons in Hin as [[= -> ->]|Hin].
        -- left; right. rewrite Et in Hr. by simplify_eq.
        -- right. by exists r, l'.
    + intros Hn0. apply Hn, Hn1, Hn0.
Qed.

(** A loop that returns an error has met a file that does not decode. *)
Lemma tagsLoop_error tblName fileIds : ∀ rec tagIndex tagIndex' e s s',
  faults s = [] →
  tagsLoop tblName fileIds rec tagIndex s = (Ret (tagIndex', Some e), s') →
  decodeAll (lookupFile (files s) tblName) fileIds rec = None.
Proof.
  induction fileIds as [|fileId rest IH]; intros rec tagIndex tagIndex' e s s' Hq H;
    cbn [tagsLoop] in H; [by rewrite run_ret in H|].
  rewrite run_bind, ReadFile_quiet in H by done. cbn [decodeAll].
  destruct (lookupFile (files s) tblName fileId) as [[data|b]|]; try done.
  destruct (Unmarshal data rec) as [rec' [e'|]] eqn:EU; [done|].
  rewrite run_bind in H. unfold assertSlice in H.
  destruct (rec' !! "tags") as [[| | | |l|]|] eqn:Et; try done.
  rewrite run_ret, run_bind in H.
  destruct (indexTags l fileId tagIndex s) as [[mid|p] s1] eqn:EI; [|done].
  destruct (indexTags_spec _ _ _ _ _ _ EI) as (-> & _ & _).
  by rewrite (IH _ _ _ _ _ _ Hq H).
Qed.

Global Instance sameFldIndexes_preorder : PreOrder sameFldIndexes.
Proof.
  split.
  - by intros s.
  - intros s1 s2 s3 H1 H2. unfold sameFldIndexes in *. congruence.
Qed.

Lemma sameStore_tagsLoop tblName fileIds rec tagIndex :
  preserves sameStore (tagsLoop tblName fileIds rec tagIndex).
Proof. apply keeps_tagsLoop; first apply _. apply sameStore_ioFault. Qed.

Lemma sameFldIndexes_initTagsIndex tblName :
  preserves sameFldIndexes (initTagsIndex tblName).
Proof.
  apply keeps_initTagsIndex; first apply _; try done.
  intros s. unfold ioFault. by destruct (faults s).
Qed.

Lemma initTagsIndex_run tblName s :
  initTagsIndex tblName s =
  let s0 := set_tagIndexes (alter (λ _, ∅) tblName (tagIndexes s)) s in
  match tagsLoop tblName (fileIdsInDataDir tblName s0) ∅ ∅ s0 with
  | (Ret (_, Some e), s1) => (Ret (Some e), s1)
  | (Ret (tagIndex, None), s1) =>
      (Ret None, set_tagIndexes (<[tblName := tagIndex]> (tagIndexes s1)) s1)
  | (Panic p, s1) => (Panic p, s1)
  end.
Proof.
  unfold initTagsIndex. rewrite run_modify_bind, run_get_bind, run_bind.
  cbv zeta.
  destruct (tagsLoop _ _ _ _ _) as [[[tagIndex [e|]]|p] s1]; reflexivity.
Qed.

Lemma initTblIndexes_run tblName s :
  initTblIndexes tblName s =
  match fieldsToIndex s !! tblName with
  | Some fldNames =>
      match initNonTagsIndexes tblName s with
      | (Ret (Some e), s1) => (Ret (Some e), s1)
      | (Ret None, s1) =>
          if stringInSlice "tags" fldNames then
            match initTagsIndex tblName s1 with
            | (Ret _, s2) => (Ret None, s2)
            | (Panic p, s2) => (Panic p, s2)
            end
          else (Ret None, s1)
      | (Panic p, s1) => (Panic p, s1)
      end
  | None => (Ret None, s)
  end.
Proof.
  unfold initTblIndexes. rewrite run_get_bind.
  destruct (fieldsToIndex s !! tblName) as [fldNames|]; [|done].
  rewrite run_bind.
  destruct (initNonTagsIndexes tblName s) as [[[e|]|p] s1]; try done.
  destruct (stringInSlice "tags" fldNames); [|done]. rewrite run_bind.
  by destruct (initTagsIndex tblName s1) as [[r|p] s2].
Qed.

Lemma initTagsIndex_spec tblName s s' r :
  faults s = [] →
  initTagsIndex tblName s = (Ret r, s') →
  match r with
  | None =>
      ∃ seen,
        decodeAll (lookupFile (files s) tblName) (fileIdsInDataDir tblName s) ∅
          = Some seen ∧
        dedupedTags tblName s' ∧
        (∀ tag x, inTagBucket s' tblName tag x ↔
                  ∃ r l, (x, r) ∈ seen ∧ r !! "tags" = Some (JArr l) ∧
                         JStr tag ∈ l)
  | Some e =>
      decodeAll (lookupFile (files s) tblName) (fileIdsInDataDir tblName s) ∅
        = None
  end.
Proof.
  intros Hq H. rewrite initTagsIndex_run in H. cbv zeta in H.
  set (s0 := set_tagIndexes _ s) in H.
  destruct (tagsLoop tblName (fileIdsInDataDir tblName s0) ∅ ∅ s0)
    as [[[tagIndex [e|]]|p] s1] eqn:EL; [| |done].
  - simplify_eq. apply (tagsLoop_error _ _ _ _ _ _ s0 _ Hq EL).
  - simplify_eq.
    destruct (tagsLoop_spec _ _ _ _ _ s0 _ Hq EL) as (seen & Hdec & Hb & Hn).
    exists seen. split; [exact Hdec|].
    assert (∀ tag, tagBucket tblName tag
              (set_tagIndexes (<[tblName := tagIndex]> (tagIndexes s1)) s1)
            = tagIndex !! tag) as Htb.
    { intros tag. unfold tagBucket. cbn [tagIndexes set_tagIndexes].
      by rewrite lookup_insert_eq. }
    split.
    + intros tag ids. rewrite Htb. apply Hn.
      intros ? ? Hl. by rewrite lookup_empty in Hl.
    + intros tag x. unfold inTagBucket. rewrite Htb, Hb. split.
      * intros [(ids & Hl & _)|?]; [by rewrite lookup_empty in Hl|done].
      * intros ?. by right.
Qed.

(** A rebuild that returns nil on a substrate without pending failures has
    decoded every file of the table, and leaves both indexes of the table
    equal to what those files hold. *)
Lemma initTblIndexes_success tblName fldNames s s' :
  faults s = [] →
  fieldsToIndex s !! tblName = Some fldNames →
  initTblIndexes tblName s = (Ret None, s') →
  ∃ seen, rebuiltFrom fldNames tblName s' seen ∧ sameStore s s'.
Proof.
  intros Hq Hc H.
  pose proof (sameStore_initTblIndexes tblName s) as HS. rewrite H in HS.
  cbn [snd] in HS.
  rewrite initTblIndexes_run, Hc in H.
  pose proof (sameStore_initNonTagsIndexes tblName s) as HS1.
  destruct (initNonTagsIndexes tblName s) as [[[e|]|p] s1] eqn:EN; try done.
  destruct (initNonTagsIndexes_spec _ _ _ Hq EN) as (seen & Hdec & Hstr & Hb).
  rewrite Hc in Hstr, Hb. cbn [default snd] in Hstr, Hb, HS1.
  destruct HS1 as (Hfu1 & Hc1 & Hl1 & Hlog1 & Hq1).
  pose proof (fileIdsInDataDir_same tblName _ _ Hfu1) as Hids1.
  destruct Hfu1 as [Hf1 Hu1].
  destruct (stringInSlice "tags" fldNames) eqn:Etags.
  - pose proof (sameStore_initTagsIndex tblName s1) as HS2.
    pose proof (sameFldIndexes_initTagsIndex tblName s1) as HF2.
    destruct (initTagsIndex tblName s1) as [[r|p] s2] eqn:ET; [|done].
    simplify_eq. cbn [snd] in HS2, HF2.
    destruct HS2 as (Hfu2 & Hc2 & Hl2 & Hlog2 & Hq2).
    pose proof (fileIdsInDataDir_same tblName _ _ Hfu2) as Hids2'.
    destruct Hfu2 as [Hf2 Hu2].
    pose proof (initTagsIndex_spec _ _ _ _ (Hq1 Hq) ET) as HTs.
    rewrite Hf1, Hids1, Hdec in HTs.
    destruct r as [e|]; [done|]. destruct HTs as (seen' & Heq & Hn & Htb).
    simplify_eq. exists seen'. split; [|done].
    assert (fileIdsInDataDir tblName s' = fileIdsInDataDir tblName s) as Hids2
      by congruence.
    split; [auto|]. split; [by rewrite Hf2, Hf1, Hids2|].
    split; [exact Hstr|]. split; [|done].
    intros f v x. rewrite <- Hb. unfold inFldBucket, fldBucket.
    unfold sameFldIndexes in HF2. by rewrite HF2.
  - simplify_eq. exists seen. split; [|done].
    split; [auto|]. split; [by rewrite Hf1, Hids1|].
    split; [exact Hstr|]. split; [exact Hb|].
    intros Hin. apply stringInSlice_true in Hin. congruence.
Qed.

(** * Further properties of the code *)

(** ** The directory listing *)

Lemma NoDup_omap_fst {A B} (f : string * A → option B) (l : list (string * A)) :
  NoDup l.*1 →
  (∀ e1 e2 y, e1 ∈ l → e2 ∈ l → f e1 = Some y → f e2 = Some y → e1.1 = e2.1) →
  NoDup (omap f l).
Proof.
  induction l as [|e l IH]; intros Hnd Hinj; [constructor|].
  cbn [fmap list_fmap] in Hnd. apply NoDup_cons in Hnd as [Hnotin Hnd].
  cbn [omap list_omap]. destruct (f e) as [y|] eqn:Ey.
  - apply NoDup_cons. split.
    + intros Hin. apply list_elem_of_omap in Hin as (e2 & Hin2 & Ey2).
      apply Hnotin. rewrite (Hinj e e2 y); [by apply list_elem_of_fmap_2|left|
        by right|done|done].
    + apply IH; [done|]. intros e1 e2 z H1 H2. apply Hinj; by right.
  - apply IH; [done|]. intros e1 e2 z H1 H2. apply Hinj; by right.
Qed.

Lemma NoDup_fileIdsInDataDir tblName s : NoDup (fileIdsInDataDir tblName s).
Proof.
  unfold fileIdsInDataDir, ReadDir.
  destruct (files s !! tblName) as [d|]; cbn [fst]; [|constructor].
  destruct (decide (tblName ∈ unlistable s)); [constructor|].
  apply NoDup_omap_fst.
  - rewrite merge_sort_Permutation. apply NoDup_fst_map_to_list.
  - intros [n1 e1] [n2 e2] y _ _ H1 H2. cbn [fst snd] in *.
    destruct e1 as [d1|]; [|done]. destruct e2 as [d2|]; [|done].
    destruct (decide (Ext n1 = ".json")) as [E1|]; [|done].
    destruct (decide (Ext n2 = ".json")) as [E2|]; [|done].
    assert (stem n1 = stem n2) as Hst by congruence.
    transitivity (fileName (stem n1)); [by apply Ext_json_fileName|].
    rewrite Hst. symmetry. by apply Ext_json_fileName.
Qed.

(** X1: [fileIdsInDataDir] lists an id exactly when the table's directory
    can be read and holds the regular file [id.json]; it lists no id twice,
    and lists nothing when [ReadDir] fails. *)
Theorem fileIdsInDataDir_lists_regular_files tblName s :
  NoDup (fileIdsInDataDir tblName s) ∧
  (∀ fileId, fileId ∈ fileIdsInDataDir tblName s ↔
     (tblName ∉ unlistable s) ∧
     ∃ data, lookupFile (files s) tblName fileId = Some (RegularFile data)) ∧
  ((ReadDir tblName s).2 ≠ None → fileIdsInDataDir tblName s = []).
Proof.
  split; [apply NoDup_fileIdsInDataDir|].
  split; [apply elem_of_fileIdsInDataDir|].
  unfold fileIdsInDataDir, ReadDir.
  destruct (files s !! tblName) as [d|]; [|done].
  by destruct (decide (tblName ∈ unlistable s)).
Qed.

(** X2: [stringInSlice] answers [true] exactly for the strings that occur in
    the slice. *)
Theorem stringInSlice_iff_elem s l : stringInSlice s l = true ↔ s ∈ l.
Proof. apply stringInSlice_true. Qed.

(** ** The substrate calls *)

Lemma ioFault_quiet s : faults s = [] → ioFault s = (Ret false, s).
Proof. intros H. unfold ioFault. by rewrite H. Qed.

Lemma ioFault_inv s b s1 :
  ioFault s = (Ret b, s1) →
  files s1 = files s ∧ sameButFiles s s1.
Proof.
  unfold ioFault. destruct (faults s) as [|b' fl] eqn:E; intros H; simplify_eq.
  - split; [done|]. by repeat split.
  - split; [done|]. repeat split. cbn. intros. congruence.
Qed.

Lemma ioFault_no_panic s p s1 : ioFault s ≠ (Panic p, s1).
Proof. unfold ioFault. by destruct (faults s). Qed.

Lemma sameButFiles_set_files f s s0 :
  sameButFiles s s0 → sameButFiles s (set_files f s0).
Proof. intros H. exact H. Qed.

Lemma WriteFile_inv tblName fileId data s r s1 :
  WriteFile tblName fileId data s = (r, s1) →
  sameButFiles s s1 ∧
  ((r = Ret None ∧ ∃ d, files s !! tblName = Some d ∧
      files s1 = <[tblName := <[fileName fileId := RegularFile data]> d]> (files s)) ∨
   ((∃ e, r = Ret (Some e)) ∧ files s1 = files s)).
Proof.
  unfold WriteFile. rewrite run_bind.
  destruct (ioFault s) as [[b|p] s0] eqn:EF; [|by apply ioFault_no_panic in EF].
  destruct (ioFault_inv _ _ _ EF) as [Hf HS].
  destruct b.
  { cbv beta iota. rewrite run_ret. intros [= <- <-].
    split; [done|]. right. split; [by eexists|done]. }
  cbv beta iota. rewrite run_get_bind. cbv beta. rewrite Hf.
  destruct (files s !! tblName) as [d|] eqn:Ed.
  - destruct (d !! fileName fileId) as [[data'|b]|] eqn:Ee.
    + rewrite run_modify_bind, run_ret. intros [= <- <-].
      split; [by apply sameButFiles_set_files|]. left. split; [done|].
      exists d. split; [done|]. done.
    + rewrite run_ret. intros [= <- <-]. split; [done|].
      right. split; [by eexists|done].
    + rewrite run_modify_bind, run_ret. intros [= <- <-].
      split; [by apply sameButFiles_set_files|]. left. split; [done|].
      exists d. split; [done|]. done.
  - rewrite run_ret. intros [= <- <-]. split; [done|].
    right. split; [by eexists|done].
Qed.

Lemma Remove_inv tblName fileId s r s1 :
  Remove tblName fileId s = (r, s1) →
  sameButFiles s s1 ∧
  ((r = Ret None ∧ ∃ d, files s !! tblName = Some d ∧
      is_Some (d !! fileName fileId) ∧
      files s1 = <[tblName := delete (fileName fileId) d]> (files s)) ∨
   ((∃ e, r = Ret (Some e)) ∧ files s1 = files s)).
Proof.
  unfold Remove. rewrite run_bind.
  destruct (ioFault s) as [[b|p] s0] eqn:EF; [|by apply ioFault_no_panic in EF].
  destruct (ioFault_inv _ _ _ EF) as [Hf HS].
  destruct b.
  { cbv beta iota. rewrite run_ret. intros [= <- <-].
    split; [done|]. right. split; [by eexists|done]. }
  cbv beta iota. rewrite run_get_bind. cbv beta. rewrite Hf.
  destruct (files s !! tblName) as [d|] eqn:Ed.
  - destruct (d !! fileName fileId) as [[data'|[|]]|] eqn:Ee.
    + rewrite run_modify_bind, run_ret. intros [= <- <-].
      split; [by apply sameButFiles_set_files|]. left. split; [done|].
      exists d. split; [done|]. split; [done|]. done.
    + rewrite run_ret. intros [= <- <-]. split; [done|].
      right. split; [by eexists|done].
    + rewrite run_modify_bind, run_ret. intros [= <- <-].
      split; [by apply sameButFiles_set_files|]. left. split; [done|].
      exists d. split; [done|]. split; [done|]. done.
    + rewrite run_ret. intros [= <- <-]. split; [done|].
      right. split; [by eexists|done].
  - rewrite run_ret. intros [= <- <-]. split; [done|].
    right. split; [by eexists|done].
Qed.

Lemma lookupFile_insert tree tblName d name e x :
  tree !! tblName = Some d →
  lookupFile (<[tblName := <[fileName name := e]> d]> tree) tblName x =
  if decide (x = name) then Some e else lookupFile tree tblName x.
Proof.
  intros Hd. unfold lookupFile. rewrite lookup_insert_eq, Hd. cbn.
  case_decide as E.
  - subst. by rewrite lookup_insert_eq.
  - rewrite lookup_insert_ne; [done|]. intros ?%fileName_inj. congruence.
Qed.

Lemma lookupFile_delete tree tblName d name x :
  tree !! tblName = Some d →
  lookupFile (<[tblName := delete (fileName name) d]> tree) tblName x =
  if decide (x = name) then None else lookupFile tree tblName x.
Proof.
  intros Hd. unfold lookupFile. rewrite lookup_insert_eq, Hd. cbn.
  case_decide as E.
  - subst. by rewrite lookup_delete_eq.
  - rewrite lookup_delete_ne; [done|]. intros ?%fileName_inj. congruence.
Qed.

Lemma lookupFile_other tree tblName (d : gmap string dirent) other x :
  other ≠ tblName →
  lookupFile (<[tblName := d]> tree) other x = lookupFile tree other x.
Proof. intros Hne. unfold lookupFile. by rewrite lookup_insert_ne. Qed.

(** ** The writers, step by step *)

Lemma Create_run tblName rec s :
  tblName ∈ rwLocks s →
  Create tblName rec s =
  let s0 := logEvent (EvLock tblName) s in
  match nextAvailableFileId tblName s, Marshal rec with
  | (fileId, None), (data, None) =>
      match WriteFile tblName fileId data s0 with
      | (Ret None, s1) =>
          match initTblIndexes tblName s1 with
          | (Ret err, s2) => (Ret (fileId, err), Unlock tblName s2)
          | (Panic p, s2) => (Panic p, Unlock tblName s2)
          end
      | (Ret (Some e), s1) => (Ret ("", Some e), Unlock tblName s1)
      | (Panic p, s1) => (Panic p, Unlock tblName s1)
      end
  | (_, Some e), _ => (Ret ("", Some e), Unlock tblName s0)
  | (_, None), (_, Some e) => (Ret ("", Some e), Unlock tblName s0)
  end.
Proof.
  intros HL. unfold Create, Lock. rewrite run_bind, acquire_held by done.
  rewrite run_defer, run_get_bind. cbv zeta beta.
  change (nextAvailableFileId tblName (logEvent (EvLock tblName) s))
    with (nextAvailableFileId tblName s).
  destruct (nextAvailableFileId tblName s) as [fileId [e|]]; [done|].
  destruct (Marshal rec) as [data [e|]]; [done|].
  rewrite run_bind.
  destruct (WriteFile _ _ _ _) as [[[e|]|p] s1]; [done| |done].
  rewrite run_bind.
  by destruct (initTblIndexes tblName s1) as [[[e|]|p] s2].
Qed.

Lemma Update_run tblName rec fileId s :
  tblName ∈ rwLocks s →
  Update tblName rec fileId s =
  let s0 := logEvent (EvLock tblName) s in
  match Atoi fileId, Marshal rec with
  | (_, None), (data, None) =>
      match WriteFile tblName fileId data s0 with
      | (Ret None, s1) =>
          match initTblIndexes tblName s1 with
          | (Ret err, s2) => (Ret err, Unlock tblName s2)
          | (Panic p, s2) => (Panic p, Unlock tblName s2)
          end
      | (Ret (Some e), s1) => (Ret (Some e), Unlock tblName s1)
      | (Panic p, s1) => (Panic p, Unlock tblName s1)
      end
  | (_, Some e), _ => (Ret (Some e), Unlock tblName s0)
  | (_, None), (_, Some e) => (Ret (Some e), Unlock tblName s0)
  end.
Proof.
  intros HL. unfold Update, Lock. rewrite run_bind, acquire_held by done.
  rewrite run_defer. cbv zeta.
  destruct (Atoi fileId) as [n [e|]]; [done|].
  destruct (Marshal rec) as [data [e|]]; [done|].
  rewrite run_bind.
  destruct (WriteFile _ _ _ _) as [[[e|]|p] s1]; [done| |done].
  rewrite run_bind.
  by destruct (initTblIndexes tblName s1) as [[[e|]|p] s2].
Qed.

Lemma Delete_run tblName fileId s :
  tblName ∈ rwLocks s →
  Delete tblName fileId s =
  match Atoi fileId with
  | (_, Some e) => (Ret (Some e), s)
  | (_, None) =>
      match Remove tblName fileId (logEvent (EvLock tblName) s) with
      | (Ret None, s1) =>
          match initTblIndexes tblName s1 with
          | (Ret err, s2) => (Ret err, Unlock tblName s2)
          | (Panic p, s2) => (Panic p, Unlock tblName s2)
          end
      | (Ret (Some e), s1) => (Ret (Some e), Unlock tblName s1)
      | (Panic p, s1) => (Panic p, Unlock tblName s1)
      end
  end.
Proof.
  intros HL. unfold Delete, Lock.
  destruct (Atoi fileId) as [n [e|]]; [done|].
  rewrite run_bind, acquire_held by done. rewrite run_defer, run_bind.
  destruct (Remove _ _ _) as [[[e|]|p] s1]; [done| |done].
  rewrite run_bind.
  by destruct (initTblIndexes tblName s1) as [[[e|]|p] s2].
Qed.

(** A call that returns has found the table's lock. *)
Lemma returns_locked {A} (body : M A) tblName s a s' :
  (Lock tblName ≫= λ _, body) s = (Ret a, s') → tblName ∈ rwLocks s.
Proof.
  unfold Lock. rewrite run_bind. unfold acquire. by case_decide.
Qed.

Lemma Create_locked tblName rec s r s' :
  Create tblName rec s = (Ret r, s') → tblName ∈ rwLocks s.
Proof. apply returns_locked. Qed.

Lemma Update_locked tblName rec fileId s r s' :
  Update tblName rec fileId s = (Ret r, s') → tblName ∈ rwLocks s.
Proof. apply returns_locked. Qed.

Lemma Delete_locked tblName fileId s s' :
  Delete tblName fileId s = (Ret None, s') → tblName ∈ rwLocks s.
Proof.
  unfold Delete. destruct (Atoi fileId) as [n [e|]]; [done|].
  apply returns_locked.
Qed.

Lemma formatDigits_nonempty fuel u acc : formatDigits (S fuel) u acc ≠ "".
Proof.
  revert u acc. induction fuel as [|fuel IH]; intros u acc;
    cbn [formatDigits]; destruct (u <? 10); try done. apply IH.
Qed.

Lemma Itoa_nonempty n : Itoa n ≠ "".
Proof.
  unfold Itoa. destruct (n <? 0); [done|]. apply formatDigits_nonempty.
Qed.

Lemma nextAvailableFileId_nonempty tblName s fileId :
  nextAvailableFileId tblName s = (fileId, None) → fileId ≠ "".
Proof.
  unfold nextAvailableFileId.
  destruct (atoiAll _ _) as [fileIds [e|]]; [done|].
  destruct (last _) as [n|]; intros [= <-]; [apply Itoa_nonempty|done].
Qed.

Lemma fileIds_after_insert tblName fileId data d s s1 :
  files s !! tblName = Some d →
  files s1 = <[tblName := <[fileName fileId := RegularFile data]> d]> (files s) →
  unlistable s1 = unlistable s →
  ∀ x, x ∈ fileIdsInDataDir tblName s1 ↔
       ((tblName ∉ unlistable s) ∧ x = fileId) ∨ x ∈ fileIdsInDataDir tblName s.
Proof.
  intros Hd Hf Hu x. rewrite !elem_of_fileIdsInDataDir, Hf, Hu.
  rewrite (lookupFile_insert _ _ _ _ _ _ Hd). case_decide as E.
  - subst. split.
    + intros [? _]. by left.
    + intros [[? _]|[? _]]; (split; [done|by eexists]).
  - split; [by right|]. intros [[_ ?]|?]; done.
Qed.

Lemma fileIds_after_delete tblName fileId d s s1 :
  files s !! tblName = Some d →
  files s1 = <[tblName := delete (fileName fileId) d]> (files s) →
  unlistable s1 = unlistable s →
  ∀ x, x ∈ fileIdsInDataDir tblName s1 ↔
       x ≠ fileId ∧ x ∈ fileIdsInDataDir tblName s.
Proof.
  intros Hd Hf Hu x. rewrite !elem_of_fileIdsInDataDir, Hf, Hu.
  rewrite (lookupFile_delete _ _ _ _ _ Hd). case_decide as E.
  - subst. split; [by intros [_ [? ?]]|]. by intros [? _].
  - split; [done|]. by intros [_ ?].
Qed.

Lemma otherFilesSame_insert tblName fileId e d s s1 :
  files s !! tblName = Some d →
  files s1 = <[tblName := <[fileName fileId := e]> d]> (files s) →
  otherFilesSame tblName fileId s s1.
Proof.
  intros Hd Hf. split.
  - intros x Hx. rewrite Hf, (lookupFile_insert _ _ _ _ _ _ Hd).
    by rewrite decide_False.
  - intros other x Hne. rewrite Hf. by apply lookupFile_other.
Qed.

Lemma otherFilesSame_delete tblName fileId d s s1 :
  files s !! tblName = Some d →
  files s1 = <[tblName := delete (fileName fileId) d]> (files s) →
  otherFilesSame tblName fileId s s1.
Proof.
  intros Hd Hf. split.
  - intros x Hx. rewrite Hf, (lookupFile_delete _ _ _ _ _ Hd).
    by rewrite decide_False.
  - intros other x Hne. rewrite Hf. by apply lookupFile_other.
Qed.

Lemma Create_written tblName rec s fileId err s' :
  Create tblName rec s = (Ret (fileId, err), s') →
  err = None ∨ fileId ≠ "" →
  ∃ j d s1 s2,
    rec = Value j ∧ nextAvailableFileId tblName s = (fileId, None) ∧
    files s !! tblName = Some d ∧
    files s1 = <[tblName := <[fileName fileId := RegularFile (Doc j)]> d]> (files s) ∧
    sameButFiles (logEvent (EvLock tblName) s) s1 ∧
    initTblIndexes tblName s1 = (Ret err, s2) ∧ s' = Unlock tblName s2.
Proof.
  intros H Hw. pose proof (Create_locked _ _ _ _ _ H) as HL.
  rewrite Create_run in H by done. cbv zeta in H.
  destruct (nextAvailableFileId tblName s) as [id [e|]] eqn:En.
  { simplify_eq. by destruct Hw. }
  destruct rec as [|j]; cbn [Marshal] in H.
  { simplify_eq. by destruct Hw. }
  destruct (WriteFile _ _ _ _) as [r s1] eqn:EW.
  destruct (WriteFile_inv _ _ _ _ _ _ EW) as [HS [(-> & d & Hd & Hf)|[[e ->] Hf]]].
  - destruct (initTblIndexes tblName s1) as [[err'|p] s2] eqn:EI; [|done].
    simplify_eq. by exists j, d, s1, s2.
  - simplify_eq. by destruct Hw.
Qed.

Lemma Update_written tblName rec fileId s s' :
  Update tblName rec fileId s = (Ret None, s') →
  ∃ j d s1 s2,
    rec = Value j ∧ (Atoi fileId).2 = None ∧
    files s !! tblName = Some d ∧
    files s1 = <[tblName := <[fileName fileId := RegularFile (Doc j)]> d]> (files s) ∧
    sameButFiles (logEvent (EvLock tblName) s) s1 ∧
    initTblIndexes tblName s1 = (Ret None, s2) ∧ s' = Unlock tblName s2.
Proof.
  intros H. pose proof (Update_locked _ _ _ _ _ _ H) as HL.
  rewrite Update_run in H by done. cbv zeta in H.
  destruct (Atoi fileId) as [n [e|]] eqn:En; [done|].
  destruct rec as [|j]; cbn [Marshal] in H; [done|].
  destruct (WriteFile _ _ _ _) as [r s1] eqn:EW.
  destruct (WriteFile_inv _ _ _ _ _ _ EW) as [HS [(-> & d & Hd & Hf)|[[e ->] Hf]]];
    [|done].
  destruct (initTblIndexes tblName s1) as [[err'|p] s2] eqn:EI; [|done].
  simplify_eq. by exists j, d, s1, s2.
Qed.

Lemma Delete_removed tblName fileId s s' :
  Delete tblName fileId s = (Ret None, s') →
  ∃ d s1 s2,
    (Atoi fileId).2 = None ∧
    files s !! tblName = Some d ∧ is_Some (d !! fileName fileId) ∧
    files s1 = <[tblName := delete (fileName fileId) d]> (files s) ∧
    sameButFiles (logEvent (EvLock tblName) s) s1 ∧
    initTblIndexes tblName s1 = (Ret None, s2) ∧ s' = Unlock tblName s2.
Proof.
  intros H. pose proof (Delete_locked _ _ _ _ H) as HL.
  rewrite Delete_run in H by done.
  destruct (Atoi fileId) as [n [e|]] eqn:En; [done|].
  destruct (Remove _ _ _) as [r s1] eqn:ER.
  destruct (Remove_inv _ _ _ _ _ ER)
    as [HS [(-> & d & Hd & He & Hf)|[[e ->] Hf]]]; [|done].
  destruct (initTblIndexes tblName s1) as [[err'|p] s2] eqn:EI; [|done].
  simplify_eq. by exists d, s1, s2.
Qed.

Lemma rebuild_keeps_files tblName s1 r s2 :
  initTblIndexes tblName s1 = (r, s2) →
  files (Unlock tblName s2) = files s1 ∧
  unlistable (Unlock tblName s2) = unlistable s1.
Proof.
  intros H. pose proof (sameStore_initTblIndexes tblName s1) as HS.
  rewrite H in HS. cbn [snd] in HS. by destruct HS as (? & _).
Qed.

(** X3: when [Create] returns a nil error, or an error together with a
    non-empty id (the rebuild failed after the write), the id is the one
    [nextAvailableFileId] computed, the file of that id holds the marshalled
    record, every other file is as before, and the listing of the table (of
    a directory that can be read) has gained exactly that id. *)
Theorem Create_writes_record tblName rec s fileId err s' :
  Create tblName rec s = (Ret (fileId, err), s') →
  err = None ∨ fileId ≠ "" →
  nextAvailableFileId tblName s = (fileId, None) ∧
  (∃ j, rec = Value j ∧
        lookupFile (files s') tblName fileId = Some (RegularFile (Doc j))) ∧
  otherFilesSame tblName fileId s s' ∧
  (∀ x, x ∈ fileIdsInDataDir tblName s' ↔
        ((tblName ∉ unlistable s) ∧ x = fileId) ∨ x ∈ fileIdsInDataDir tblName s).
Proof.
  intros H Hw.
  destruct (Create_written _ _ _ _ _ _ H Hw)
    as (j & d & s1 & s2 & -> & Hn & Hd & Hf & HS & HI & ->).
  destruct (rebuild_keeps_files _ _ _ _ HI) as [Hf2 Hu2].
  destruct HS as (Hu1 & _).
  split; [done|]. split; [|split].
  - exists j. split; [done|].
    rewrite Hf2, Hf, (lookupFile_insert _ _ _ _ _ _ Hd). by rewrite decide_True.
  - eapply otherFilesSame_insert; [done|]. by rewrite Hf2.
  - eapply fileIds_after_insert; [done|by rewrite Hf2|by rewrite Hu2].
Qed.

Lemma Create_writes_record_witness :
  Create "posts" (post "bob" ["go"]) exOne = (Ret ("2", None), exTwo) ∧
  nextAvailableFileId "posts" exOne = ("2", None).
Proof.
  assert (Create "posts" (post "bob" ["go"]) exOne = (Ret ("2", None), exTwo))
    as H by (vm_compute; reflexivity).
  split; [exact H|].
  apply (Create_writes_record _ _ _ _ _ _ H (or_introl eq_refl)).
Defined.

(** X4: an [Update] that returns nil has written the marshalled record into
    the file of the given id, whether or not that file existed before: every
    other file is as before and the listing is the old one with the id
    added. *)
Theorem Update_writes_record tblName rec fileId s s' :
  Update tblName rec fileId s = (Ret None, s') →
  (Atoi fileId).2 = None ∧
  (∃ j, rec = Value j ∧
        lookupFile (files s') tblName fileId = Some (RegularFile (Doc j))) ∧
  otherFilesSame tblName fileId s s' ∧
  (∀ x, x ∈ fileIdsInDataDir tblName s' ↔
        ((tblName ∉ unlistable s) ∧ x = fileId) ∨ x ∈ fileIdsInDataDir tblName s).
Proof.
  intros H.
  destruct (Update_written _ _ _ _ _ H)
    as (j & d & s1 & s2 & -> & Hn & Hd & Hf & HS & HI & ->).
  destruct (rebuild_keeps_files _ _ _ _ HI) as [Hf2 Hu2].
  destruct HS as (Hu1 & _).
  split; [done|]. split; [|split].
  - exists j. split; [done|].
    rewrite Hf2, Hf, (lookupFile_insert _ _ _ _ _ _ Hd). by rewrite decide_True.
  - eapply otherFilesSame_insert; [done|]. by rewrite Hf2.
  - eapply fileIds_after_insert; [done|by rewrite Hf2|by rewrite Hu2].
Qed.

Lemma Update_writes_record_witness :
  Update "posts" (post "zed" []) "7" exOne
    = (Ret None, (Update "posts" (post "zed" []) "7" exOne).2) ∧
  lookupFile (files exOne) "posts" "7" = None ∧
  ∃ j, post "zed" [] = Value j ∧
       lookupFile (files (Update "posts" (post "zed" []) "7" exOne).2) "posts" "7"
         = Some (RegularFile (Doc j)).
Proof.
  assert (Update "posts" (post "zed" []) "7" exOne
            = (Ret None, (Update "posts" (post "zed" []) "7" exOne).2))
    as H by (vm_compute; reflexivity).
  split; [exact H|]. split; [vm_compute; reflexivity|].
  apply (Update_writes_record _ _ _ _ _ H).
Defined.

(** X5: a [Delete] that returns nil has removed the file of the given id,
    which existed: every other file is as before and the listing has lost
    exactly that id. *)
Theorem Delete_removes_record tblName fileId s s' :
  Delete tblName fileId s = (Ret None, s') →
  is_Some (lookupFile (files s) tblName fileId) ∧
  lookupFile (files s') tblName fileId = None ∧
  otherFilesSame tblName fileId s s' ∧
  (∀ x, x ∈ fileIdsInDataDir tblName s' ↔
        x ≠ fileId ∧ x ∈ fileIdsInDataDir tblName s).
Proof.
  intros H.
  destruct (Delete_removed _ _ _ _ H)
    as (d & s1 & s2 & Hn & Hd & He & Hf & HS & HI & ->).
  destruct (rebuild_keeps_files _ _ _ _ HI) as [Hf2 Hu2].
  destruct HS as (Hu1 & _).
  split; [|split; [|split]].
  - unfold lookupFile. by rewrite Hd.
  - rewrite Hf2, Hf, (lookupFile_delete _ _ _ _ _ Hd). by rewrite decide_True.
  - eapply otherFilesSame_delete; [done|]. by rewrite Hf2.
  - eapply fileIds_after_delete; [done|by rewrite Hf2|by rewrite Hu2].
Qed.

Lemma Delete_removes_record_witness :
  Delete "posts" "1" exTwo = (Ret None, (Delete "posts" "1" exTwo).2) ∧
  lookupFile (files (Delete "posts" "1" exTwo).2) "posts" "1" = None.
Proof.
  assert (Delete "posts" "1" exTwo = (Ret None, (Delete "posts" "1" exTwo).2))
    as H by (vm_compute; reflexivity).
  split; [exact H|]. apply (Delete_removes_record _ _ _ _ H).
Defined.

(** ** Identifier allocation *)








Lemma Atoi_one : Atoi "1" = (1, None).
Proof. reflexivity. Qed.




(** ** Reading back, closing, and the queries *)

Lemma Create_leaves_quiet tblName rec s fileId s' :
  faults s = [] → Create tblName rec s = (Ret (fileId, None), s') →
  faults s' = [] ∧ tblName ∈ rwLocks s' ∧
  ∃ j, rec = Value j ∧
       lookupFile (files s') tblName fileId = Some (RegularFile (Doc j)).
Proof.
  intros Hq H. pose proof (Create_locked _ _ _ _ _ H) as HL.
  destruct (Create_written _ _ _ _ _ _ H (or_introl eq_refl))
    as (j & d & s1 & s2 & -> & _ & Hd & Hf & HS & HI & ->).
  destruct (rebuild_keeps_files _ _ _ _ HI) as [Hf2 _].
  pose proof (sameStore_initTblIndexes tblName s1) as HSS.
  rewrite HI in HSS. cbn [snd] in HSS.
  destruct HSS as (_ & _ & Hl2 & _ & Hq2).
  destruct HS as (_ & _ & Hl1 & _ & _ & _ & Hq1).
  split; [|split].
  - apply Hq2, Hq1. exact Hq.
  - cbn [Unlock logEvent set_lockLog rwLocks]. rewrite Hl2, Hl1. exact HL.
  - exists j. split; [done|].
    rewrite Hf2, Hf, (lookupFile_insert _ _ _ _ _ _ Hd). by rewrite decide_True.
Qed.

Section find_facts.
Context {R : Type}.
Context (unmarshalInto : fileData → R → R * error).
Context (afterFind : R → string → M unit).

Lemma Find_run tblName (rec : R) fileId s :
  tblName ∈ rwLocks s →
  Find unmarshalInto afterFind tblName rec fileId s =
  match loadRec unmarshalInto tblName rec fileId
          (logEvent (EvRLock tblName) s) with
  | (Ret (rec', Some e), s1) => (Ret (rec', Some e), RUnlock tblName s1)
  | (Ret (rec', None), s1) =>
      match afterFind rec' fileId s1 with
      | (Ret _, s2) => (Ret (rec', None), RUnlock tblName s2)
      | (Panic p, s2) => (Panic p, RUnlock tblName s2)
      end
  | (Panic p, s1) => (Panic p, RUnlock tblName s1)
  end.
Proof.
  intros HL. unfold Find, RLock. rewrite run_bind, acquire_held by done.
  rewrite run_defer, run_bind.
  destruct (loadRec _ _ _ _ _) as [[[rec' [e|]]|p] s1]; [done| |done].
  rewrite run_bind. by destruct (afterFind rec' fileId s1) as [[[]|p] s2].
Qed.

Lemma loadRec_quiet tblName (rec : R) fileId s :
  faults s = [] →
  loadRec unmarshalInto tblName rec fileId s =
    (Ret match lookupFile (files s) tblName fileId with
         | Some (RegularFile data) => unmarshalInto data rec
         | Some (Directory _) => (rec, Some ErrIsDir)
         | None => (rec, Some ErrNotExist)
         end, s).
Proof.
  intros Hq. unfold loadRec. rewrite run_bind, ReadFile_quiet by done.
  by destruct (lookupFile (files s) tblName fileId) as [[data|b]|].
Qed.

(** X9: a record that [Create] has stored, with no substrate failure
    pending, is what [Find] reads back: the caller's record is filled by
    [json.Unmarshal] from the very document that was written, [AfterFind]
    runs on it when that succeeds, and the read lock is released whatever
    the outcome. *)
Theorem Find_reads_created tblName j s fileId s' (rec : R) :
  faults s = [] →
  Create tblName (Value j) s = (Ret (fileId, None), s') →
  Find unmarshalInto afterFind tblName rec fileId s' =
  match unmarshalInto (Doc j) rec with
  | (rec', Some e) =>
      (Ret (rec', Some e),
       RUnlock tblName (logEvent (EvRLock tblName) s'))
  | (rec', None) =>
      match afterFind rec' fileId (logEvent (EvRLock tblName) s') with
      | (Ret _, s2) => (Ret (rec', None), RUnlock tblName s2)
      | (Panic p, s2) => (Panic p, RUnlock tblName s2)
      end
  end.
Proof.
  intros Hq H.
  destruct (Create_leaves_quiet _ _ _ _ _ Hq H)
    as (Hq' & HL & j' & [= <-] & Hl).
  rewrite Find_run by done. rewrite loadRec_quiet by exact Hq'.
  change (files (logEvent (EvRLock tblName) s')) with (files s').
  rewrite Hl. by destruct (unmarshalInto (Doc j) rec) as [rec' [e|]].
Qed.

End find_facts.

Lemma Find_reads_created_witness :
  Find Unmarshal (λ _ _, mret tt) "posts" ∅ "2" exTwo =
    (Ret ({[ "author" := JStr "bob"; "tags" := JArr [JStr "go"] ]}, None),
     RUnlock "posts" (logEvent (EvRLock "posts") exTwo)).
Proof.
  rewrite (Find_reads_created Unmarshal (λ _ _, mret tt) "posts"
             (JObj [("author", JStr "bob"); ("tags", JArr [JStr "go"])])
             exOne "2" exTwo ∅).
  - vm_compute. reflexivity.
  - vm_compute. reflexivity.
  - vm_compute. reflexivity.
Defined.


Lemma sameData_preorder : PreOrder sameData.
Proof.
  split.
  - by intros s.
  - intros s1 s2 s3 ([H1 H1'] & H2 & H3 & H4 & H5) ([G1 G1'] & G2 & G3 & G4 & G5).
    repeat split; congruence.
Qed.

Lemma sameData_logEvent e s : sameData s (logEvent e s).
Proof. by repeat split. Qed.

Lemma sameData_ioFault : preserves sameData ioFault.
Proof. intros s. unfold ioFault. by destruct (faults s). Qed.

Lemma sameData_acquire e tblName : preserves sameData (acquire e tblName).
Proof.
  intros s. unfold acquire. case_decide; cbn [snd]; [|done].
  apply sameData_logEvent.
Qed.

Lemma sameData_ReadFile tblName fileId :
  preserves sameData (ReadFile tblName fileId).
Proof.
  pose proof sameData_preorder. pose proof sameData_ioFault.
  unfold ReadFile. pres_go.
Qed.

Lemma sameData_scanLoop tblName searchField searchValue fileIds :
  ∀ rec ids,
  preserves sameData (scanLoop tblName searchField searchValue fileIds rec ids).
Proof.
  pose proof sameData_preorder. pose proof sameData_ReadFile.
  induction fileIds as [|fileId rest IH]; intros rec ids; cbn [scanLoop].
  - pres_go.
  - apply preserves_bind; [done|done|]. intros [data [e|]]; [pres_go|].
    destruct (Unmarshal data rec) as [rec' [e|]]; [pres_go|].
    apply preserves_bind; [done| |intros v; apply IH].
    unfold assertString. pres_go.
Qed.

Lemma sameData_FindAllIdsForField tblName searchField searchValue :
  preserves sameData (FindAllIdsForField tblName searchField searchValue).
Proof.
  pose proof sameData_preorder.
  unfold FindAllIdsForField, RLock.
  apply preserves_bind; [done|apply sameData_acquire|]. intros _.
  apply preserves_defer; [done|intros s; apply sameData_logEvent|].
  apply preserves_bind; [done|pres_go|]. intros s0.
  destruct (fldBucket _ _ _ s0); [pres_go|].
  unfold scanIdsForField. apply preserves_bind; [done|pres_go|].
  intros s1. apply sameData_scanLoop.
Qed.

(** X11: the queries change neither the files nor the configuration, the
    set of locks or the indexes, whether they return or panic. *)
Theorem queries_leave_data tblName searchField searchValue searchTags s :
  sameData s (FindAllIds tblName s).2 ∧
  sameData s (FindAllIdsForField tblName searchField searchValue s).2 ∧
  sameData s (FindFirstIdForField tblName searchField searchValue s).2 ∧
  sameData s (FindAllIdsForTags tblName searchTags s).2.
Proof.
  pose proof sameData_preorder.
  pose proof sameData_FindAllIdsForField as HF.
  split; [|split; [|split]].
  - assert (preserves sameData (FindAllIds tblName)) as Hp; [|apply Hp].
    unfold FindAllIds, RLock.
    apply preserves_bind; [done|apply sameData_acquire|]. intros _.
    apply preserves_defer; [done|intros s0; apply sameData_logEvent|].
    pres_go.
  - apply HF.
  - assert (preserves sameData
              (FindFirstIdForField tblName searchField searchValue)) as Hp;
      [|apply Hp].
    unfold FindFirstIdForField.
    apply preserves_bind; [done|apply HF|]. intros [results [e|]]; [pres_go|].
    destruct results; pres_go.
  - assert (preserves sameData (FindAllIdsForTags tblName searchTags)) as Hp;
      [|apply Hp].
    unfold FindAllIdsForTags, RLock.
    apply preserves_bind; [done|apply sameData_acquire|]. intros _.
    apply preserves_defer; [done|intros s0; apply sameData_logEvent|].
    pres_go.
Qed.

Lemma Close_fold tables : ∀ s,
  sameData s (foldl (λ s1 tblName,
                       Unlock tblName (logEvent (EvLock tblName) s1))
                    s tables) ∧
  lockLog (foldl (λ s1 tblName,
                    Unlock tblName (logEvent (EvLock tblName) s1)) s tables)
  = lockLog s ++ (tables ≫= λ tblName, [EvLock tblName; EvUnlock tblName]).
Proof.
  induction tables as [|t rest IH]; intros s; cbn [foldl].
  - split; [by repeat split|]. cbn. by rewrite app_nil_r.
  - destruct (IH (Unlock t (logEvent (EvLock t) s))) as [HS HL].
    split.
    + destruct HS as ([H1 H1'] & H2 & H3 & H4 & H5). by repeat split.
    + rewrite HL. cbn [Unlock logEvent set_lockLog lockLog mbind list_bind].
      rewrite <- !app_assoc. done.
Qed.

(** X12: [Close] never fails: it takes and releases the write lock of each
    table that owns one, once, and changes nothing else. *)
Theorem Close_takes_every_lock s :
  (Close s).1 = Ret tt ∧
  sameData s (Close s).2 ∧
  lockLog (Close s).2 =
    lockLog s ++
    (elements (rwLocks s) ≫= λ tblName, [EvLock tblName; EvUnlock tblName]).
Proof.
  unfold Close. rewrite run_get_bind. unfold modify. cbn [fst snd].
  split; [done|]. apply Close_fold.
Qed.

(** * The indexes after a successful writer *)

Lemma foldl_insert_agree (members : list (string * json)) :
  ∀ (m1 m2 : gmap string json) k,
  m1 !! k = m2 !! k →
  foldl (λ m kv, <[kv.1 := kv.2]> m) m1 members !! k =
  foldl (λ m kv, <[kv.1 := kv.2]> m) m2 members !! k.
Proof.
  induction members as [|[k' v'] rest IH]; intros m1 m2 k H; [done|].
  cbn [foldl fst snd]. apply IH.
  destruct (decide (k' = k)) as [->|Hne].
  - by rewrite !lookup_insert_eq.
  - by rewrite !lookup_insert_ne.
Qed.

Lemma foldl_insert_member (members : list (string * json)) :
  ∀ (m1 m2 : gmap string json) k,
  k ∈ members.*1 →
  foldl (λ m kv, <[kv.1 := kv.2]> m) m1 members !! k =
  foldl (λ m kv, <[kv.1 := kv.2]> m) m2 members !! k.
Proof.
  induction members as [|[k' v'] rest IH]; intros m1 m2 k Hin.
  - by apply elem_of_nil in Hin.
  - cbn [foldl fst snd].
    destruct (decide (k ∈ rest.*1)) as [Hr|Hr]; [by apply IH|].
    cbn [fmap list_fmap fst] in Hin. apply elem_of_cons in Hin as [->|Hin]; [|done].
    apply foldl_insert_agree. by rewrite !lookup_insert_eq.
Qed.

Lemma foldl_insert_absent (members : list (string * json)) :
  ∀ (m : gmap string json) k,
  k ∉ members.*1 →
  foldl (λ m kv, <[kv.1 := kv.2]> m) m members !! k = m !! k.
Proof.
  induction members as [|[k' v'] rest IH]; intros m k Hin; [done|].
  cbn [foldl fst snd]. cbn [fmap list_fmap fst] in Hin.
  apply not_elem_of_cons in Hin as [Hne Hin].
  rewrite IH by done. by rewrite lookup_insert_ne.
Qed.

(** A field that the document of a file carries itself has, after the
    file has been unmarshalled into whatever map, the value the document
    gives it. *)
Lemma Unmarshal_own data rec rec' fldName :
  Unmarshal data rec = (rec', None) →
  is_Some (fieldOf data fldName) →
  rec' !! fldName = fieldOf data fldName.
Proof.
  unfold fieldOf. destruct data as [|j]; [done|].
  destruct j as [| | | | |members]; cbn [Unmarshal fst]; try done.
  - intros [= <-] [x Hx]. by rewrite lookup_empty in Hx.
  - intros [= <-] [x Hx].
    destruct (decide (fldName ∈ members.*1)) as [Hin|Hin].
    + by apply foldl_insert_member.
    + rewrite foldl_insert_absent in Hx by done.
      by rewrite lookup_empty in Hx.
Qed.

Lemma decodeAll_elem look fileIds : ∀ rec seen x r,
  decodeAll look fileIds rec = Some seen →
  (x, r) ∈ seen →
  x ∈ fileIds ∧
  ∃ data rec0, look x = Some (RegularFile data) ∧ Unmarshal data rec0 = (r, None).
Proof.
  induction fileIds as [|fileId rest IH]; intros rec seen x r H Hin;
    cbn [decodeAll] in H.
  - simplify_eq. by apply elem_of_nil in Hin.
  - destruct (look fileId) as [[data|b]|] eqn:El; try done.
    destruct (Unmarshal data rec) as [rec' [e|]] eqn:EU; [done|].
    destruct (decodeAll look rest rec') as [seen'|] eqn:Ed; [|done].
    cbn [fmap option_fmap option_map] in H. simplify_eq.
    apply elem_of_cons in Hin as [[= -> ->]|Hin].
    + split; [left|]. by exists data, rec.
    + destruct (IH _ _ _ _ Ed Hin) as [? ?]. split; [by right|done].
Qed.

Lemma decodeAll_covers look fileIds : ∀ rec seen x,
  decodeAll look fileIds rec = Some seen →
  x ∈ fileIds → ∃ r, (x, r) ∈ seen.
Proof.
  induction fileIds as [|fileId rest IH]; intros rec seen x H Hin;
    cbn [decodeAll] in H.
  - by apply elem_of_nil in Hin.
  - destruct (look fileId) as [[data|b]|] eqn:El; try done.
    destruct (Unmarshal data rec) as [rec' [e|]] eqn:EU; [done|].
    destruct (decodeAll look rest rec') as [seen'|] eqn:Ed; [|done].
    cbn [fmap option_fmap option_map] in H. simplify_eq.
    apply elem_of_cons in Hin as [->|Hin].
    + exists rec'. left.
    + destruct (IH _ _ _ Ed Hin) as [r ?]. exists r. by right.
Qed.

(** With self-contained records, what the loops saw of a record is what
    its own file holds. *)
Lemma seen_is_own tblName fldNames s seen :
  selfContained tblName s →
  fieldsToIndex s !! tblName = Some fldNames →
  decodeAll (lookupFile (files s) tblName) (fileIdsInDataDir tblName s) ∅
    = Some seen →
  ∀ f j x, f ∈ fldNames →
    (∃ r, (x, r) ∈ seen ∧ r !! f = Some j) ↔
    (tblName ∉ unlistable s) ∧ recordHas s tblName x f j.
Proof.
  intros Hsc Hc Hdec f j x Hf. unfold selfContained in Hsc.
  rewrite Hc in Hsc. cbn [default] in Hsc. rewrite Forall_forall in Hsc.
  split.
  - intros (r & Hin & Hr).
    destruct (decodeAll_elem _ _ _ _ _ _ Hdec Hin)
      as [Hx (data & rec0 & Hl & HU)].
    specialize (Hsc x Hx). rewrite Hl in Hsc. cbn [ownsFields] in Hsc.
    rewrite Forall_forall in Hsc. specialize (Hsc f Hf).
    apply elem_of_fileIdsInDataDir in Hx as [Hu _]. split; [done|].
    exists data. split; [done|].
    by rewrite <- (Unmarshal_own _ _ _ _ HU Hsc).
  - intros [Hu (data & Hl & Hown)].
    assert (x ∈ fileIdsInDataDir tblName s) as Hx.
    { apply elem_of_fileIdsInDataDir. split; [done|]. by exists data. }
    destruct (decodeAll_covers _ _ _ _ _ Hdec Hx) as [r Hin].
    exists r. split; [done|].
    destruct (decodeAll_elem _ _ _ _ _ _ Hdec Hin)
      as [_ (data' & rec0 & Hl' & HU)].
    rewrite Hl in Hl'. simplify_eq.
    rewrite (Unmarshal_own _ _ _ f HU); [done|]. by rewrite Hown.
Qed.

(** A writer that returns nil on a substrate without pending failures
    leaves the indexes of a configured table rebuilt from the files it
    leaves. *)
Lemma mutation_rebuilt tblName m s s' fldNames :
  faults s = [] →
  fieldsToIndex s !! tblName = Some fldNames →
  runMutation tblName m s = (Ret None, s') →
  ∃ seen, rebuiltFrom fldNames tblName s' seen ∧
          fieldsToIndex s' = fieldsToIndex s ∧ rwLocks s' = rwLocks s ∧
          unlistable s' = unlistable s ∧ tblName ∈ rwLocks s.
Proof.
  intros Hq Hc H.
  assert (∃ s1 s2, sameButFiles (logEvent (EvLock tblName) s) s1 ∧
                   initTblIndexes tblName s1 = (Ret None, s2) ∧
                   s' = Unlock tblName s2 ∧ tblName ∈ rwLocks s)
    as (s1 & s2 & HS & HI & -> & HL).
  { destruct m as [rec|rec fileId|fileId]; cbn [runMutation] in H.
    - rewrite run_bind in H.
      destruct (Create tblName rec s) as [[[fileId err]|p] sx] eqn:EC; [|done].
      rewrite run_ret in H. simplify_eq.
      pose proof (Create_locked _ _ _ _ _ EC) as HL.
      destruct (Create_written _ _ _ _ _ _ EC (or_introl eq_refl))
        as (j & d & s1 & s2 & _ & _ & _ & _ & HS & HI & ->).
      by exists s1, s2.
    - pose proof (Update_locked _ _ _ _ _ _ H) as HL.
      destruct (Update_written _ _ _ _ _ H)
        as (j & d & s1 & s2 & _ & _ & _ & _ & HS & HI & ->).
      by exists s1, s2.
    - pose proof (Delete_locked _ _ _ _ H) as HL.
      destruct (Delete_removed _ _ _ _ H)
        as (d & s1 & s2 & _ & _ & _ & _ & HS & HI & ->).
      by exists s1, s2. }
  destruct HS as (Hu1 & Hc1 & Hl1 & _ & _ & _ & Hq1).
  cbn [logEvent set_lockLog faults fieldsToIndex rwLocks unlistable] in *.
  destruct (initTblIndexes_success tblName fldNames s1 s2)
    as (seen & Hre & HSS); [auto|congruence|done|].
  destruct HSS as ([_ Hu2] & Hc2 & Hl2 & _ & _).
  exists seen. split; [exact Hre|].
  cbn [Unlock logEvent set_lockLog fieldsToIndex rwLocks unlistable].
  repeat split; congruence.
Qed.

(** * The lock bracket of the writers *)












(** * The indexes and the files after a successful writer *)

Lemma scanLoop_subset tblName searchField searchValue fileIds :
  ∀ rec ids s res s',
  scanLoop tblName searchField searchValue fileIds rec ids s
    = (Ret (res, None), s') →
  ∀ x, x ∈ res → x ∈ ids ∨ x ∈ fileIds.
Proof.
  induction fileIds as [|fileId rest IH]; intros rec ids s res s' H x Hx;
    cbn [scanLoop] in H.
  - rewrite run_ret in H. simplify_eq. by left.
  - rewrite run_bind in H.
    destruct (ReadFile tblName fileId s) as [[[data [e|]]|p] s1]; try done.
    destruct (Unmarshal data rec) as [rec' [e|]]; [done|].
    rewrite run_bind in H.
    destruct (rec' !! searchField) as [[| | |v| |]|]; try done.
    cbn [assertString] in H. rewrite run_ret in H.
    destruct (IH _ _ _ _ _ H x Hx) as [Hi|Hi]; [|right; by right].
    case_decide; [|by left].
    apply elem_of_app in Hi as [Hi|Hi]; [by left|].
    apply list_elem_of_singleton in Hi as ->. right. left.
Qed.

Lemma Delete_unlisted tblName fileId s s' :
  Delete tblName fileId s = (Ret None, s') →
  fileId ∉ fileIdsInDataDir tblName s'.
Proof.
  intros H.
  destruct (Delete_removed _ _ _ _ H)
    as (d & s1 & s2 & Hn & Hd & He & Hf & HS & HI & ->).
  destruct (rebuild_keeps_files _ _ _ _ HI) as [Hf2 Hu2].
  destruct HS as (Hu1 & _).
  intros Hin.
  eapply fileIds_after_delete in Hin as [Hne _];
    [done|done|by rewrite Hf2|by rewrite Hu2].
Qed.

(** The builders declare their record map once, outside the loop, and
    [json.Unmarshal] keeps the entries of a map that the document does not
    mention: a record without author is indexed under the author of the
    record read before it.  Hence the condition, below, that every record
    carries the configured fields itself. *)
Lemma stale_map_leaks_into_index :
  (Create "posts" (Value (JObj [("tags", JArr [])])) exOne).1
    = Ret ("2", None) ∧
  lookupFile (files exLeak) "posts" "2"
    = Some (RegularFile (Doc (JObj [("tags", JArr [])]))) ∧
  fldBucket "posts" "author" "alice" exLeak = Some ["1"; "2"] ∧
  ¬ selfContained "posts" exLeak.
Proof.
  split; [vm_compute; reflexivity|]. split; [vm_compute; reflexivity|].
  split; [vm_compute; reflexivity|]. by_compute.
Qed.

(** C1 (as amended): let a writer return nil on a table that has an index
    configuration and a listable directory, with no substrate failure
    pending.  If every record file it leaves carries each configured field
    itself, then an id is in the bucket of (field, value) exactly when the
    field is configured, is not [tags], and the id's file exists and
    decodes with that field equal to the string value; and, when [tags]
    is configured, an id is in a tag's bucket exactly when its file exists
    and its [tags] array contains the tag.  After a [Delete] the id is in
    no listing, in no bucket of the field index, in no bucket of the tag
    index when [tags] is configured, and in no result of a scan. *)
Theorem indexes_exact_after_mutation tblName m s fldNames :
  fieldsToIndex s !! tblName = Some fldNames →
  faults s = [] →
  tblName ∉ unlistable s →
  (runMutation tblName m s).1 = Ret None →
  (selfContained tblName (runMutation tblName m s).2 →
     (∀ f v x, inFldBucket (runMutation tblName m s).2 tblName f v x ↔
               f ∈ fldNames ∧ f ≠ "tags" ∧
               recordHas (runMutation tblName m s).2 tblName x f (JStr v)) ∧
     ("tags" ∈ fldNames →
      ∀ tag x, inTagBucket (runMutation tblName m s).2 tblName tag x ↔
               ∃ l, recordHas (runMutation tblName m s).2 tblName x "tags"
                      (JArr l) ∧ JStr tag ∈ l)) ∧
  (∀ fileId, m = MDelete fileId →
     (fileId ∉ fileIdsInDataDir tblName (runMutation tblName m s).2) ∧
     (∀ f v, ¬ inFldBucket (runMutation tblName m s).2 tblName f v fileId) ∧
     ("tags" ∈ fldNames →
      ∀ tag, ¬ inTagBucket (runMutation tblName m s).2 tblName tag fileId) ∧
     (∀ f v ids,
        (scanIdsForField tblName f v (runMutation tblName m s).2).1
          = Ret (ids, None) → fileId ∉ ids)).
Proof.
  intros Hc Hq Hu Hr.
  destruct (runMutation tblName m s) as [r s'] eqn:E. cbn [fst snd] in *.
  subst r.
  destruct (mutation_rebuilt _ _ _ _ _ Hq Hc E)
    as (seen & (Hq' & Hdec & Hstr & Hfld & Htag) & Hc' & _ & Hu' & _).
  rewrite <- Hc' in Hc. rewrite <- Hu' in Hu.
  split.
  - intros Hsc.
    pose proof (seen_is_own _ _ _ _ Hsc Hc Hdec) as Hown.
    split.
    + intros f v x. rewrite Hfld. split.
      * intros (Hf & Hn & Hs). split; [done|]. split; [done|].
        by apply (Hown f (JStr v) x Hf).
      * intros (Hf & Hn & Hs). split; [done|]. split; [done|].
        by apply (Hown f (JStr v) x Hf).
    + intros Ht tag x. destruct (Htag Ht) as [_ Hb]. rewrite Hb. split.
      * intros (r & l & Hin & Hl & Hm). exists l. split; [|done].
        apply (Hown "tags" (JArr l) x Ht). by exists r.
      * intros (l & Hrec & Hm).
        destruct (proj2 (Hown "tags" (JArr l) x Ht)) as (r & Hin & Hl);
          [done|]. by exists r, l.
  - intros fileId ->. cbn [runMutation] in E.
    pose proof (Delete_unlisted _ _ _ _ E) as Hun.
    split; [done|]. split; [|split].
    + intros f v Hin. apply Hfld in Hin as (_ & _ & r & Hin & _).
      by destruct (decodeAll_elem _ _ _ _ _ _ Hdec Hin) as [? _].
    + intros Ht tag Hin. destruct (Htag Ht) as [_ Hb].
      apply Hb in Hin as (r & l & Hin & _).
      by destruct (decodeAll_elem _ _ _ _ _ _ Hdec Hin) as [? _].
    + intros f v ids Hs Hin. unfold scanIdsForField in Hs.
      rewrite run_get_bind in Hs.
      destruct (scanLoop tblName f v (fileIdsInDataDir tblName s') ∅ [] s')
        as [res s''] eqn:ES.
      cbn [fst] in Hs. subst res.
      destruct (scanLoop_subset _ _ _ _ _ _ _ _ _ ES _ Hin) as [Hi|Hi];
        [by apply elem_of_nil in Hi|done].
Qed.

Lemma indexes_exact_after_mutation_witness :
  (∀ v x, inFldBucket (runMutation "posts" (MDelete "1") exTwo).2
            "posts" "author" v x ↔
          recordHas (runMutation "posts" (MDelete "1") exTwo).2
            "posts" x "author" (JStr v)) ∧
  ("1" ∉ fileIdsInDataDir "posts" (runMutation "posts" (MDelete "1") exTwo).2) ∧
  ∀ tag, ¬ inTagBucket (runMutation "posts" (MDelete "1") exTwo).2
             "posts" tag "1".
Proof.
  destruct (indexes_exact_after_mutation "posts" (MDelete "1") exTwo
              ["author"; "tags"]) as [H1 H2].
  - vm_compute; reflexivity.
  - vm_compute; reflexivity.
  - by_compute.
  - vm_compute; reflexivity.
  - destruct H1 as [Hf _]; [by_compute|].
    destruct (H2 "1" eq_refl) as (Hl & _ & Ht & _).
    split; [|split].
    + intros v x. split.
      * intros Hin. exact (proj2 (proj2 (proj1 (Hf "author" v x) Hin))).
      * intros Hrec. apply (proj2 (Hf "author" v x)).
        split; [by_compute|]. split; [discriminate|exact Hrec].
    + exact Hl.
    + apply Ht. by_compute.
Defined.

(** C1 (as stated) fails for a table without index configuration: the
    [Create] succeeds, the file exists and decodes with the author it was
    given, and no bucket holds its id; the same holds for its tag. *)
Lemma Create_unconfigured_not_indexed :
  (runMutation "notes" (MCreate (post "amy" ["go"])) exOpen).1 = Ret None ∧
  recordHas (runMutation "notes" (MCreate (post "amy" ["go"])) exOpen).2
    "notes" "1" "author" (JStr "amy") ∧
  ¬ inFldBucket (runMutation "notes" (MCreate (post "amy" ["go"])) exOpen).2
      "notes" "author" "amy" "1" ∧
  recordHas (runMutation "notes" (MCreate (post "amy" ["go"])) exOpen).2
    "notes" "1" "tags" (JArr [JStr "go"]) ∧
  ¬ inTagBucket (runMutation "notes" (MCreate (post "amy" ["go"])) exOpen).2
      "notes" "go" "1".
Proof.
  split; [vm_compute; reflexivity|]. split; [|split; [|split]].
  - eexists. split; vm_compute; reflexivity.
  - intros (ids & H & _). vm_compute in H. discriminate H.
  - eexists. split; vm_compute; reflexivity.
  - intros (ids & H & _). vm_compute in H. discriminate H.
Qed.

(** * The indexed path and the scan *)

Lemma FindAllIdsForField_run tblName searchField searchValue s :
  tblName ∈ rwLocks s →
  FindAllIdsForField tblName searchField searchValue s =
  match fldBucket tblName searchField searchValue s with
  | Some ids =>
      (Ret (ids, None), RUnlock tblName (logEvent (EvRLock tblName) s))
  | None =>
      ((scanIdsForField tblName searchField searchValue
          (logEvent (EvRLock tblName) s)).1,
       RUnlock tblName
         (scanIdsForField tblName searchField searchValue
            (logEvent (EvRLock tblName) s)).2)
  end.
Proof.
  intros HL. unfold FindAllIdsForField, RLock.
  rewrite run_bind, acquire_held by done.
  rewrite run_defer, run_get_bind.
  change (fldBucket tblName searchField searchValue
            (logEvent (EvRLock tblName) s))
    with (fldBucket tblName searchField searchValue s).
  by destruct (fldBucket tblName searchField searchValue s).
Qed.

Lemma scanIdsForField_rebuilt fldNames tblName s seen e f v :
  rebuiltFrom fldNames tblName s seen →
  f ∈ fldNames → f ≠ "tags" →
  scanIdsForField tblName f v (logEvent e s) =
    (Ret (matchingIds f v seen, None), logEvent e s).
Proof.
  intros (Hq & Hdec & Hstr & _) Hf Hn. unfold scanIdsForField.
  rewrite run_get_bind.
  rewrite (scanLoop_spec tblName f v _ ∅ [] seen (logEvent e s)); [done|..].
  - exact Hq.
  - exact Hdec.
  - intros x r Hin. by apply (Hstr x r Hin f).
Qed.

Lemma scanIdsForField_rebuilt_here fldNames tblName s seen f v :
  rebuiltFrom fldNames tblName s seen →
  f ∈ fldNames → f ≠ "tags" →
  scanIdsForField tblName f v s = (Ret (matchingIds f v seen, None), s).
Proof.
  intros (Hq & Hdec & Hstr & _) Hf Hn. unfold scanIdsForField.
  rewrite run_get_bind.
  rewrite (scanLoop_spec tblName f v _ ∅ [] seen s); [done|done|done|].
  intros x r Hin. by apply (Hstr x r Hin f).
Qed.

(** C2 (as amended): after a writer has returned nil on a configured table
    with no substrate failure pending, for every configured field other
    than [tags] and every value, the scan returns a list of ids,
    [FindAllIdsForField] returns a list of ids, the two hold the same ids,
    and when the index has a bucket for the pair the list returned is that
    bucket. *)
Theorem index_agrees_with_scan tblName m s fldNames f v :
  fieldsToIndex s !! tblName = Some fldNames →
  faults s = [] →
  (runMutation tblName m s).1 = Ret None →
  f ∈ fldNames → f ≠ "tags" →
  ∃ scanned found,
    (scanIdsForField tblName f v (runMutation tblName m s).2).1
      = Ret (scanned, None) ∧
    (FindAllIdsForField tblName f v (runMutation tblName m s).2).1
      = Ret (found, None) ∧
    (∀ x, x ∈ found ↔ x ∈ scanned) ∧
    (∀ ids, fldBucket tblName f v (runMutation tblName m s).2 = Some ids →
            found = ids).
Proof.
  intros Hc Hq Hr Hf Hn.
  destruct (runMutation tblName m s) as [r s'] eqn:E. cbn [fst snd] in *.
  subst r.
  destruct (mutation_rebuilt _ _ _ _ _ Hq Hc E)
    as (seen & Hre & _ & Hl' & _ & HL).
  rewrite <- Hl' in HL.
  exists (matchingIds f v seen).
  rewrite (scanIdsForField_rebuilt_here _ _ _ _ _ v Hre Hf Hn).
  rewrite FindAllIdsForField_run by done.
  pose proof Hre as (Hq' & Hdec & Hstr & Hfld & Htag).
  assert (∀ x, inFldBucket s' tblName f v x ↔ x ∈ matchingIds f v seen)
    as Hin.
  { intros x. rewrite Hfld, elem_of_matchingIds. naive_solver. }
  destruct (fldBucket tblName f v s') as [ids|] eqn:Eb.
  - exists ids. split; [done|]. split; [done|]. split.
    + intros x. rewrite <- Hin. unfold inFldBucket. rewrite Eb. naive_solver.
    + by intros ? [= <-].
  - exists (matchingIds f v seen).
    rewrite (scanIdsForField_rebuilt fldNames _ _ seen _ f v Hre Hf Hn).
    cbn [fst]. done.
Qed.

Lemma index_agrees_with_scan_witness :
  ∃ scanned found,
    (scanIdsForField "posts" "author" "alice"
       (runMutation "posts" (MCreate (post "bob" ["go"])) exOne).2).1
      = Ret (scanned, None) ∧
    (FindAllIdsForField "posts" "author" "alice"
       (runMutation "posts" (MCreate (post "bob" ["go"])) exOne).2).1
      = Ret (found, None) ∧
    (∀ x, x ∈ found ↔ x ∈ scanned) ∧
    (∀ ids, fldBucket "posts" "author" "alice"
              (runMutation "posts" (MCreate (post "bob" ["go"])) exOne).2
              = Some ids → found = ids).
Proof.
  apply (index_agrees_with_scan "posts" (MCreate (post "bob" ["go"])) exOne
           ["author"; "tags"] "author" "alice").
  - vm_compute; reflexivity.
  - vm_compute; reflexivity.
  - vm_compute; reflexivity.
  - by_compute.
  - discriminate.
Defined.

(** C2 (as stated) fails in a state that the operations themselves leave:
    a [Create] whose rebuild meets a read failure at the second record
    returns the error with the field index rebuilt up to the first record
    only.  The indexed path then answers with the one id of the bucket and
    the scan with both ids whose record has that author. *)
Lemma stale_index_differs_from_scan :
  (Create "posts" (post "alice" []) (set_faults [false; false; true] exTwo)).1
    = Ret ("3", Some ErrIO) ∧
  fieldsToIndex exStale !! "posts" = Some ["author"; "tags"] ∧
  fldBucket "posts" "author" "alice" exStale = Some ["1"] ∧
  (FindAllIdsForField "posts" "author" "alice" exStale).1
    = Ret (["1"], None) ∧
  (scanIdsForField "posts" "author" "alice" exStale).1
    = Ret (["1"; "3"], None).
Proof. repeat apply conj; vm_compute; reflexivity. Qed.

(** * The tag query *)

Lemma counter_step (m : gmap string nat) a x :
  counter (match m !! a with
           | Some n => <[a := S n]> m
           | None => <[a := 1%nat]> m
           end) x
  = (counter m x + if decide (x = a) then 1 else 0)%nat.
Proof.
  unfold counter. destruct (decide (x = a)) as [->|Hne].
  - destruct (m !! a) as [n|] eqn:E; rewrite lookup_insert_eq; cbn; lia.
  - destruct (m !! a) as [n|] eqn:E; rewrite lookup_insert_ne by done; lia.
Qed.

Lemma positive_step (m : gmap string nat) a :
  positive m →
  positive (match m !! a with
            | Some n => <[a := S n]> m
            | None => <[a := 1%nat]> m
            end).
Proof.
  intros Hp x k. destruct (m !! a) as [n|] eqn:E.
  - destruct (decide (x = a)) as [->|Hne].
    + rewrite lookup_insert_eq. intros [= <-]. lia.
    + rewrite lookup_insert_ne by done. apply Hp.
  - destruct (decide (x = a)) as [->|Hne].
    + rewrite lookup_insert_eq. intros [= <-]. lia.
    + rewrite lookup_insert_ne by done. apply Hp.
Qed.

Lemma countFileIds_counter fileIds : ∀ m x,
  NoDup fileIds →
  counter (countFileIds fileIds m) x
  = (counter m x + if decide (x ∈ fileIds) then 1 else 0)%nat.
Proof.
  unfold countFileIds.
  induction fileIds as [|a rest IH]; intros m x Hnd; cbn [foldl].
  - rewrite decide_False; [lia|]. apply not_elem_of_nil.
  - apply NoDup_cons in Hnd as [Ha Hnd].
    rewrite IH by done. rewrite counter_step.
    destruct (decide (x = a)) as [->|Hne].
    + rewrite (decide_False (P := a ∈ rest)) by done.
      rewrite (decide_True (P := a ∈ a :: rest)); [lia|left].
    + destruct (decide (x ∈ rest)) as [Hr|Hr].
      * rewrite (decide_True (P := x ∈ a :: rest)); [lia|by right].
      * rewrite (decide_False (P := x ∈ a :: rest)); [lia|].
        by apply not_elem_of_cons.
Qed.

Lemma countFileIds_positive fileIds : ∀ m,
  positive m → positive (countFileIds fileIds m).
Proof.
  unfold countFileIds.
  induction fileIds as [|a rest IH]; intros m Hp; cbn [foldl]; [done|].
  apply IH. by apply positive_step.
Qed.

Lemma countTags_counter (tagIndex : gmap string (list string)) searchTags :
  (∀ tag ids, tagIndex !! tag = Some ids → NoDup ids) →
  ∀ m x,
  counter (countTags tagIndex searchTags m) x
  = (counter m x +
     length (filter (λ tag, x ∈ default [] (tagIndex !! tag)) searchTags))%nat.
Proof.
  intros Hnd. unfold countTags.
  induction searchTags as [|tag rest IH]; intros m x; cbn [foldl].
  - cbn. lia.
  - rewrite IH. rewrite filter_cons. cbv beta.
    destruct (tagIndex !! tag) as [ids|] eqn:E; cbn [default from_option];
      unfold id.
    + rewrite countFileIds_counter by eauto.
      destruct (decide (x ∈ ids)); cbn [length]; lia.
    + rewrite decide_False; [lia|]. apply not_elem_of_nil.
Qed.

Lemma countTags_positive (tagIndex : gmap string (list string)) searchTags :
  ∀ m, positive m → positive (countTags tagIndex searchTags m).
Proof.
  unfold countTags.
  induction searchTags as [|tag rest IH]; intros m Hp; cbn [foldl]; [done|].
  apply IH. destruct (tagIndex !! tag); [|done].
  by apply countFileIds_positive.
Qed.

Lemma filter_length_all {A} (P : A → Prop) `{∀ x, Decision (P x)} (l : list A) :
  length (filter P l) = length l ↔ Forall P l.
Proof.
  induction l as [|a l IH].
  - split; [constructor|done].
  - rewrite filter_cons. pose proof (length_filter P l) as Hle.
    destruct (decide (P a)); cbn [length].
    + rewrite Forall_cons. split.
      * intros Hl. split; [done|]. apply IH. lia.
      * intros [_ Hl]. apply IH in Hl. lia.
    + split; [lia|]. intros Hl. by apply Forall_cons in Hl as [? _].
Qed.

Lemma FindAllIdsForTags_run tblName searchTags s :
  tblName ∈ rwLocks s →
  FindAllIdsForTags tblName searchTags s =
    (Ret (if decide (length searchTags ≠ 0%nat) then
            omap (λ kv : string * nat,
                    if decide (kv.2 = length searchTags) then Some kv.1
                    else None)
                 (map_to_list
                    (countTags (default ∅ (tagIndexes s !! tblName))
                               searchTags ∅))
          else [], None),
     RUnlock tblName (logEvent (EvRLock tblName) s)).
Proof.
  intros HL. unfold FindAllIdsForTags, RLock.
  rewrite run_bind, acquire_held by done.
  rewrite run_defer, run_get_bind.
  by destruct (decide (length searchTags ≠ 0%nat)).
Qed.

Lemma inTagBucket_default s tblName tag x :
  inTagBucket s tblName tag x ↔
  x ∈ default [] (default ∅ (tagIndexes s !! tblName) !! tag).
Proof.
  unfold inTagBucket, tagBucket.
  destruct (tagIndexes s !! tblName) as [t|]; cbn.
  - destruct (t !! tag) as [ids|]; cbn.
    + split; [by intros (? & [= <-] & ?)|]. intros ?. by exists ids.
    + split; [by intros (? & ? & _)|]. by intros ?%elem_of_nil.
  - rewrite lookup_empty. cbn.
    split; [by intros (? & ? & _)|]. by intros ?%elem_of_nil.
Qed.

(** The query on an index whose buckets hold no id twice. *)
Lemma FindAllIdsForTags_spec tblName searchTags s :
  tblName ∈ rwLocks s → dedupedTags tblName s →
  ∃ ids,
    (FindAllIdsForTags tblName searchTags s).1 = Ret (ids, None) ∧
    (∀ x, x ∈ ids ↔
          searchTags ≠ [] ∧
          countTags (default ∅ (tagIndexes s !! tblName)) searchTags ∅ !! x
            = Some (length searchTags)) ∧
    (∀ x, x ∈ ids ↔
          searchTags ≠ [] ∧
          ∀ tag, tag ∈ searchTags → inTagBucket s tblName tag x).
Proof.
  intros HL Hdd. rewrite FindAllIdsForTags_run by done. cbn [fst].
  eexists. split; [reflexivity|].
  set (idx := default ∅ (tagIndexes s !! tblName)).
  set (cm := countTags idx searchTags ∅).
  assert (∀ tag ids, idx !! tag = Some ids → NoDup ids) as Hnd.
  { intros tag ids Hb. apply (Hdd tag). unfold tagBucket. subst idx.
    destruct (tagIndexes s !! tblName) as [t|]; cbn in *; [done|].
    by rewrite lookup_empty in Hb. }
  assert (positive cm) as Hpos.
  { apply countTags_positive. intros x n Hx. by rewrite lookup_empty in Hx. }
  assert (∀ x, counter cm x =
               length (filter (λ tag, x ∈ default [] (idx !! tag)) searchTags))
    as Hcnt.
  { intros x. subst cm. rewrite countTags_counter by done.
    unfold counter at 1. by rewrite lookup_empty. }
  assert (∀ x, x ∈ (if decide (length searchTags ≠ 0%nat) then
                      omap (λ kv : string * nat,
                              if decide (kv.2 = length searchTags)
                              then Some kv.1 else None) (map_to_list cm)
                    else []) ↔
               searchTags ≠ [] ∧ cm !! x = Some (length searchTags)) as Hres.
  { intros x. case_decide as Hlen.
    - rewrite list_elem_of_omap. split.
      + intros ([k n] & Hin & Hk). cbn [fst snd] in Hk.
        case_decide; simplify_eq. apply elem_of_map_to_list in Hin.
        split; [|done]. by intros ->.
      + intros [_ Hx]. exists (x, length searchTags).
        split; [by apply elem_of_map_to_list|].
        cbn [fst snd]. by rewrite decide_True.
    - split; [by intros ?%elem_of_nil|]. intros [Hne _].
      destruct searchTags; [done|]. cbn [length] in Hlen. lia. }
  split; [exact Hres|].
  intros x. rewrite Hres. split.
  - intros [Hne Hx]. split; [done|].
    assert (counter cm x = length searchTags) as Hc
      by (unfold counter; by rewrite Hx).
    rewrite Hcnt in Hc. apply filter_length_all in Hc.
    rewrite Forall_forall in Hc. intros tag Ht.
    apply inTagBucket_default. by apply Hc.
  - intros [Hne Hall]. split; [done|].
    assert (counter cm x = length searchTags) as Hc.
    { rewrite Hcnt. apply filter_length_all. rewrite Forall_forall.
      intros tag Ht. apply inTagBucket_default. by apply Hall. }
    unfold counter in Hc. destruct (cm !! x) as [n|] eqn:E; cbn in Hc.
    + by subst n.
    + destruct searchTags; [done|]. cbn [length] in Hc. lia.
Qed.

Lemma recordHas_functional s tblName x f j j' :
  recordHas s tblName x f j → recordHas s tblName x f j' → j = j'.
Proof. intros (d & Hd & Hj) (d' & Hd' & Hj'). congruence. Qed.

(** C3 (as amended): after a writer has returned nil on a table that is
    configured to index [tags] and has a listable directory, with no
    substrate failure pending and every record file carrying the
    configured fields itself, [FindAllIdsForTags] returns a list of ids
    with a nil error; an id is in it exactly when the list of requested
    tags is not empty and the id's file exists with a [tags] array that
    contains every requested tag; and that is exactly when the id's count,
    one for every entry of the request whose bucket holds the id, equals
    the length of the request, repeated tags counted as often as they are
    given. *)
Theorem FindAllIdsForTags_superset tblName m s fldNames searchTags :
  fieldsToIndex s !! tblName = Some fldNames →
  "tags" ∈ fldNames →
  faults s = [] →
  tblName ∉ unlistable s →
  (runMutation tblName m s).1 = Ret None →
  selfContained tblName (runMutation tblName m s).2 →
  ∃ ids,
    (FindAllIdsForTags tblName searchTags (runMutation tblName m s).2).1
      = Ret (ids, None) ∧
    (∀ x, x ∈ ids ↔
          searchTags ≠ [] ∧
          ∃ l, recordHas (runMutation tblName m s).2 tblName x "tags" (JArr l) ∧
               ∀ tag, tag ∈ searchTags → JStr tag ∈ l) ∧
    (∀ x, x ∈ ids ↔
          searchTags ≠ [] ∧
          countTags (default ∅ (tagIndexes (runMutation tblName m s).2
                                  !! tblName)) searchTags ∅ !! x
            = Some (length searchTags)).
Proof.
  intros Hc Ht Hq Hu Hr Hsc.
  destruct (runMutation tblName m s) as [r s'] eqn:E. cbn [fst snd] in *.
  subst r.
  destruct (mutation_rebuilt _ _ _ _ _ Hq Hc E)
    as (seen & (Hq' & Hdec & Hstr & Hfld & Htag) & Hc' & Hl' & Hu' & HL).
  rewrite <- Hc' in Hc. rewrite <- Hu' in Hu. rewrite <- Hl' in HL.
  destruct (Htag Ht) as [Hdd Hb].
  pose proof (seen_is_own _ _ _ _ Hsc Hc Hdec) as Hown.
  assert (∀ tag x, inTagBucket s' tblName tag x ↔
                   ∃ l, recordHas s' tblName x "tags" (JArr l) ∧ JStr tag ∈ l)
    as Hex.
  { intros tag x. rewrite Hb. split.
    - intros (r & l & Hin & Hl & Hm). exists l. split; [|done].
      apply (Hown "tags" (JArr l) x Ht). by exists r.
    - intros (l & Hrec & Hm).
      destruct (proj2 (Hown "tags" (JArr l) x Ht)) as (r & Hin & Hl);
        [done|]. by exists r, l. }
  destruct (FindAllIdsForTags_spec tblName searchTags s' HL Hdd)
    as (ids & Hrun & Hcount & Hall).
  exists ids. split; [done|]. split; [|done].
  intros x. rewrite Hall. split.
  - intros [Hne Hin]. split; [done|].
    destruct searchTags as [|tag0 rest]; [done|].
    destruct (proj1 (Hex tag0 x)) as (l & Hrec & _); [apply Hin; left|].
    exists l. split; [done|]. intros tag Htag'.
    destruct (proj1 (Hex tag x) (Hin tag Htag')) as (l' & Hrec' & Hm).
    pose proof (recordHas_functional _ _ _ _ _ _ Hrec Hrec') as Heq.
    by simplify_eq.
  - intros [Hne (l & Hrec & Hin)]. split; [done|].
    intros tag Htag'. apply Hex. exists l. split; [done|]. by apply Hin.
Qed.

Lemma FindAllIdsForTags_superset_witness :
  ∃ ids,
    (FindAllIdsForTags "posts" ["go"; "db"]
       (runMutation "posts" (MCreate (post "bob" ["go"])) exOne).2).1
      = Ret (ids, None) ∧
    (∀ x, x ∈ ids ↔
          ["go"; "db"] ≠ [] ∧
          ∃ l, recordHas (runMutation "posts" (MCreate (post "bob" ["go"]))
                            exOne).2 "posts" x "tags" (JArr l) ∧
               ∀ tag, tag ∈ ["go"; "db"] → JStr tag ∈ l) ∧
    (∀ x, x ∈ ids ↔
          ["go"; "db"] ≠ [] ∧
          countTags (default ∅ (tagIndexes
                       (runMutation "posts" (MCreate (post "bob" ["go"]))
                          exOne).2 !! "posts")) ["go"; "db"] ∅ !! x
            = Some (length ["go"; "db"])).
Proof.
  apply (FindAllIdsForTags_superset "posts" (MCreate (post "bob" ["go"])) exOne
           ["author"; "tags"] ["go"; "db"]).
  - vm_compute; reflexivity.
  - by_compute.
  - vm_compute; reflexivity.
  - by_compute.
  - vm_compute; reflexivity.
  - by_compute.
Defined.

(** C3 (as stated) fails.  A request that names a tag twice counts the
    bucket of that tag twice: record 1 is kept with count 2, the length of
    the request, while the number of distinct requested tags is 1; read
    with the threshold the specification words, the same request returns
    nothing.  And on a table that does not index [tags] the query returns
    nothing, whatever tags the records carry. *)
Lemma FindAllIdsForTags_counts_repeats :
  (FindAllIdsForTags "posts" ["go"; "go"] exTwo).1
    = Ret (["1"; "2"], None) ∧
  countTags (default ∅ (tagIndexes exTwo !! "posts")) ["go"; "go"] ∅ !! "1"
    = Some 2%nat ∧
  length (remove_dups ["go"; "go"]) = 1%nat ∧
  (FindAllIdsForTags_distinct "posts" ["go"; "go"] exTwo).1
    = Ret ([], None) ∧
  (Create "notes" (post "amy" ["go"]) exOpen).1 = Ret ("1", None) ∧
  recordHas exNotes "notes" "1" "tags" (JArr [JStr "go"]) ∧
  (FindAllIdsForTags "notes" ["go"] exNotes).1 = Ret ([], None).
Proof.
  split; [vm_compute; reflexivity|]. split; [vm_compute; reflexivity|].
  split; [vm_compute; reflexivity|]. split; [vm_compute; reflexivity|].
  split; [vm_compute; reflexivity|]. split; [|vm_compute; reflexivity].
  eexists. split; vm_compute; reflexivity.
Qed.
